(** * Vizify: the visualizer frame loop, the token lifecycle and the
      playback controller

    A shallow embedding of
    - the [useFrame] callback of the 32-bar [Visualizer] component,
    - [refreshAccessToken] and the [jwt] callback of the NextAuth route,
    - [playTrack] and [togglePlayPause] of the dashboard page,
    with the properties the specification states about them, and of
    - the scene parameters the [Visualizer] renders from a frame,
    - the [session] callback and the session guards of the page,
    - the playlist proxy route,
    - [searchSpotify], [selectPlaylist] and the result lists of the page,
    with properties read off the code.

    JavaScript numbers are IEEE 754 binary64 values, which is what Rocq's
    primitive [float] is: [+], [*], [/] and [<] are the processor's, so the
    arithmetic of the frame loop rounds here exactly as it does in the
    script. Timestamps and token lifetimes are integers far below 2^53 and
    are kept in [Z]. *)

From Stdlib Require Import ZArith Lia QArith Qround Floats Uint63 Bool.
From stdpp Require Import base option list strings.

Local Open Scope Z_scope.
Set Warnings "-inexact-float".

(** ** JavaScript numbers *)

Module Js.

(** An integer as a Number (exact below 2^53, which covers array indices,
    array lengths and Uint8 samples). *)
Definition number_of_Z (n : Z) : float :=
  if n <? 0 then PrimFloat.opp (of_uint63 (of_Z (- n)))
  else of_uint63 (of_Z n).

Definition number_of_nat (n : nat) : float := number_of_Z (Z.of_nat n).

(** [Math.min(a, b)]: NaN if either argument is NaN, and -0 below +0. *)
Definition Math_min (a b : float) : float :=
  if is_nan a || is_nan b then nan
  else if (a <? b)%float then a
  else if (b <? a)%float then b
  else if get_sign a then a else b.

(** [Math.max(a, b)]: NaN if either argument is NaN, and +0 above -0. *)
Definition Math_max (a b : float) : float :=
  if is_nan a || is_nan b then nan
  else if (a <? b)%float then b
  else if (b <? a)%float then a
  else if get_sign a then b else a.

Definition Math_PI : float := 3.141592653589793%float.

(** The integer part of a finite binary64 value, toward zero. *)
Definition truncate (a : float) : Z :=
  match Prim2SF a with
  | S754_finite s m e =>
      let n := if 0 <=? e then Z.pos m * 2 ^ e else Z.pos m / 2 ^ (- e) in
      if s then - n else n
  | _ => 0
  end.

(** [ToUint8], the conversion a store into a [Uint8Array] applies: NaN,
    the infinities and the zeros give 0, any other number is truncated and
    taken modulo 2^8. *)
Definition ToUint8 (a : float) : Z :=
  match Prim2SF a with
  | S754_finite _ _ _ => truncate a mod 256
  | _ => 0
  end.

(** The exact value of a finite Number as a rational ([None] for NaN and
    the infinities). *)
Definition value (a : float) : option Q :=
  match Prim2SF a with
  | S754_zero _ => Some 0%Q
  | S754_finite s m e =>
      let q := if 0 <=? e then inject_Z (Z.pos m * 2 ^ e)
               else (Z.pos m # Z.to_pos (2 ^ (- e)))%Q in
      Some (if s then Qopp q else q)
  | _ => None
  end.

(** 255 as sign, mantissa and exponent: [255 = 8972014882652160 * 2^-45]. *)
Definition SF255 : spec_float := S754_finite false 8972014882652160 (-45).

(** Truthiness of an optional string: [undefined], [null] and the empty
    string are falsy. *)
Definition truthy_string (s : option string) : bool :=
  match s with
  | Some s => negb (String.eqb s "")
  | None => false
  end.

End Js.

Import Js.

(** ** The visualizer (the 32-bar [Visualizer] component) *)

Module Viz.

Record Vector3 := mkVector3 { x : float; y : float; z : float }.

(** The arguments of the last [setHSL] on a material colour. *)
Record Color := mkColor { hue : float; saturation : float; lightness : float }.

(** A bar. [color] is [None] when the mesh has no material, or a material
    without a colour. *)
Record Mesh := mkMesh {
  scale : Vector3;
  position : Vector3;
  rotation : Vector3;
  color : option Color
}.

Record Group := mkGroup { rotation_y : float }.

(** The refs and the state of the component. An entry of [meshRefs] is
    [None] where no mesh was mounted at that index. *)
Record State := mkState {
  groupRef : option Group;
  meshRefs : list (option Mesh);
  time : float;
  frequencyData : list Z
}.

(** What one animation frame reads from outside the component: the bins
    [getByteFrequencyData] writes when an analyser is bound, the [demoMode]
    prop, [audioElement?.src], the clock, and the [Math.random()] draws. *)
Record FrameInput := mkFrameInput {
  analyser : option (list Z);
  demoMode : bool;
  audioSrc : option string;
  elapsedTime : float;
  random : nat -> float
}.

(** [numBars] of [createFrequencyBars]. *)
Definition numBars : nat := 32.

Section Visualizer.

(** [Math.sin] and [Math.cos] are implementation-approximated by the
    engine; the model takes them as they come. *)
Variables Math_sin Math_cos : float -> float.

(** Lines 64-67: the value computed for sample [i] of the synthetic frame,
    from the component's [time] state and the value [Math.random()]
    returned in that iteration. *)
Definition synthetic_value (time : float) (draw : float) (i : nat) : float :=
  let wave1 := (Math_sin (time * 2 + number_of_nat i * 0.1) * 30)%float in
  let wave2 := (Math_sin (time * 0.5 + number_of_nat i * 0.05) * 50)%float in
  let noise := (draw * 20)%float in
  Math_max 0 (Math_min 255 (80 + wave1 + wave2 + noise)).

(** Line 67: the assignment to [dataArray[i]], a [Uint8Array] element. *)
Definition synthetic_sample (time : float) (draw : float) (i : nat) : Z :=
  ToUint8 (synthetic_value time draw i).

(** Lines 61-68: [new Uint8Array(128)] filled by the loop; [draws i] is the
    draw made in iteration [i]. *)
Definition synthetic_frame (time : float) (draws : nat -> float) : list Z :=
  map (fun i => synthetic_sample time (draws i) i) (seq 0 128).

(** [dataArray.reduce((sum, value) => sum + value, 0) / dataArray.length] *)
Definition average (dataArray : list Z) : float :=
  (fold_left (fun sum value => sum + number_of_Z value) dataArray 0
   / number_of_nat (length dataArray))%float.

(** Lines 79-103: the body of the [forEach] callback for a mounted mesh
    whose sample is defined. *)
Definition update_mesh (len : nat) (index : nat) (sample : Z) (mesh : Mesh) : Mesh :=
  let frequency := (number_of_Z sample / 255)%float in
  let angle := (number_of_nat index / number_of_nat len * Math_PI * 2)%float in
  let radius := (2 + frequency)%float in
  {| scale := {| x := (0.5 + frequency * 0.5)%float;
                 y := (0.1 + frequency * 3)%float;
                 z := (0.5 + frequency * 0.5)%float |};
     position := {| x := (Math_cos angle * radius)%float;
                    y := (frequency * 2 - 1)%float;
                    z := (Math_sin angle * radius)%float |};
     rotation := {| x := (x (rotation mesh) + frequency * 0.1)%float;
                    y := y (rotation mesh);
                    z := (z (rotation mesh) + frequency * 0.05)%float |};
     color :=
       match color mesh with
       | Some _ =>
           let hue := (number_of_nat index / number_of_nat len * 360)%float in
           let saturation := (50 + frequency * 50)%float in
           let lightness := (30 + frequency * 40)%float in
           Some {| hue := (hue / 360)%float;
                   saturation := (saturation / 100)%float;
                   lightness := (lightness / 100)%float |}
       | None => None
       end |}.

(** Lines 77-105: [meshRefs.current.forEach((mesh, index) => ...)]. The
    guard [mesh && dataArray[index] !== undefined] skips an index without a
    mesh, and a mesh whose index is past the end of [dataArray]. *)
Definition update_meshes (dataArray : list Z) (meshes : list (option Mesh))
  : list (option Mesh) :=
  imap (fun index mesh =>
          match mesh, dataArray !! index with
          | Some m, Some sample =>
              Some (update_mesh (length dataArray) index sample m)
          | _, _ => mesh
          end) meshes.

(** Lines 50-71: the frame the callback works on. The synthetic branch
    reads the [time] state of the current render. *)
Definition next_frame (inp : FrameInput) (st : State) : list Z :=
  match analyser inp with
  | Some bins =>
      if negb (demoMode inp) && truthy_string (audioSrc inp) then bins
      else synthetic_frame (time st) (random inp)
  | None => synthetic_frame (time st) (random inp)
  end.

(** Lines 45-106: the [useFrame] callback. *)
Definition useFrame (inp : FrameInput) (st : State) : State :=
  match groupRef st with
  | None => st
  | Some g =>
      let dataArray := next_frame inp st in
      let avg := average dataArray in
      {| groupRef :=
           Some {| rotation_y := (rotation_y g + (0.005 + avg / 10000))%float |};
         meshRefs := update_meshes dataArray (meshRefs st);
         time := elapsedTime inp;
         frequencyData := dataArray |}
  end.

End Visualizer.

(** The bounds of the specification on the scale a sample gives a bar. *)
Definition scale_check (sample : Z) : bool :=
  let frequency := (number_of_Z sample / 255)%float in
  let sy := (0.1 + frequency * 3)%float in
  let sx := (0.5 + frequency * 0.5)%float in
  (0.1 <=? sy)%float && (sy <=? 3.1)%float
  && (0.5 <=? sx)%float && (sx <=? 1)%float.

(** Stand-ins for the engine's sine and cosine where a statement is run on
    concrete data: the leading Taylor terms, exact at [+0] as ECMAScript
    requires of every engine ([Math.sin(+0)] is [+0], [Math.cos(+0)] is 1). *)
Definition taylor_sin (a : float) : float :=
  (a - a * a * a / 6 + a * a * a * a * a / 120)%float.

Definition taylor_cos (a : float) : float :=
  (1 - a * a / 2 + a * a * a * a / 24)%float.

(** A freshly mounted bar: [position = [0, 0, 0]], unit scale. *)
Definition fresh_bar : Mesh :=
  {| scale := mkVector3 1 1 1;
     position := mkVector3 0 0 0;
     rotation := mkVector3 0 0 0;
     color := Some (mkColor 0 0 0) |}.

End Viz.

(** ** The token lifecycle ([app/api/auth/[...nextauth]/route.ts]) *)

Module Auth.

(** The [JWT] of [types/next-auth.d.ts]; [None] is an absent ([undefined])
    field. Expiry times are integer milliseconds. [claims] stands for
    every other key the [...token] spread copies. *)
Record JWT := mkJWT {
  accessToken : option string;
  accessTokenExpires : option Z;
  refreshToken : option string;
  error : option string;
  claims : list (string * string)
}.

(** [{...token, error: e}] *)
Definition set_error (e : option string) (t : JWT) : JWT :=
  {| accessToken := accessToken t;
     accessTokenExpires := accessTokenExpires t;
     refreshToken := refreshToken t;
     error := e;
     claims := claims t |}.

(** The provider account handed to the callback on sign-in. *)
Record Account := mkAccount {
  account_access_token : option string;
  account_expires_in : option Z;
  account_refresh_token : option string
}.

(** The body of a token-endpoint reply: [{access_token, expires_in,
    refresh_token?}]. *)
Record TokenResponse := mkTokenResponse {
  access_token : string;
  expires_in : Z;
  refresh_token : option string
}.

Record Request := mkRequest {
  url : string;
  method : string;
  content_type : string;
  basic_credentials : string * string;
  body : list (string * option string)
}.

(** What [fetch] followed by [response.json()] comes to: [fetch] rejects,
    or a response arrives with a status and a body that parses or not. *)
Inductive FetchResult :=
| FetchRejected
| Responded (status : Z) (json : option TokenResponse).

(** [response.ok] *)
Definition ok (status : Z) : bool := (200 <=? status) && (status <=? 299).

(** The world the callbacks run in: the clock [Date.now()] reads
    (milliseconds since the epoch), the network (for a request, the time the
    exchange takes and its result), and the requests sent so far. *)
Record World := mkWorld {
  clock : N;
  network : Request -> N * FetchResult;
  requests : list Request
}.

Definition IO (A : Type) : Type := World -> A * World.

Definition ret {A} (a : A) : IO A := fun w => (a, w).

Definition bind {A B} (m : IO A) (k : A -> IO B) : IO B :=
  fun w => let '(a, w') := m w in k a w'.

Notation "'let*' x ':=' m 'in' k" := (bind m (fun x => k))
  (at level 10, x name, m at level 100, k at level 200).

Definition Date_now : IO Z := fun w => (Z.of_N (clock w), w).

Definition fetch (req : Request) : IO FetchResult := fun w =>
  let '(elapsed, result) := network w req in
  (result, {| clock := clock w + elapsed;
              network := network w;
              requests := requests w ++ [req] |}).

Definition RefreshAccessTokenError : string := "RefreshAccessTokenError".

Section Route.

(** [process.env.SPOTIFY_CLIENT_ID] and [process.env.SPOTIFY_CLIENT_SECRET] *)
Variables SPOTIFY_CLIENT_ID SPOTIFY_CLIENT_SECRET : string.

(** Lines 15-29: the request [refreshAccessToken] sends. *)
Definition refresh_request (token : JWT) : Request :=
  {| url := "https://accounts.spotify.com/api/token";
     method := "POST";
     content_type := "application/x-www-form-urlencoded";
     basic_credentials := (SPOTIFY_CLIENT_ID, SPOTIFY_CLIENT_SECRET);
     body := [("grant_type", Some "refresh_token");
              ("refresh_token", refreshToken token)] |}.

(** Lines 12-52. Every throw inside the [try] (a rejected [fetch], a body
    that does not parse, a response that is not [ok]) lands in the [catch].
    The success object spreads [token] and names three keys, so [error]
    and the other keys are the old ones. *)
Definition refreshAccessToken (token : JWT) : IO JWT :=
  let* result := fetch (refresh_request token) in
  match result with
  | Responded status (Some refreshedTokens) =>
      if ok status then
        let* now := Date_now in
        ret {| accessToken := Some (access_token refreshedTokens);
               accessTokenExpires := Some (now + expires_in refreshedTokens * 1000);
               refreshToken :=
                 match refresh_token refreshedTokens with
                 | Some r => Some r
                 | None => refreshToken token
                 end;
               error := error token;
               claims := claims token |}
      else ret (set_error (Some RefreshAccessTokenError) token)
  | Responded _ None | FetchRejected =>
      ret (set_error (Some RefreshAccessTokenError) token)
  end.

(** Lines 69-113: the [jwt] callback. [(account.expires_in) || 3600] falls
    back on an absent and on a zero [expires_in]; the guard
    [accessTokenExpires && now < accessTokenExpires] is false for an absent
    and for a zero expiry. *)
Definition jwt (token : JWT) (account : option Account) : IO JWT :=
  match account with
  | Some account =>
      let* now := Date_now in
      let seconds :=
        match account_expires_in account with
        | Some n => if n =? 0 then 3600 else n
        | None => 3600
        end in
      ret {| accessToken := account_access_token account;
             accessTokenExpires := Some (now + seconds * 1000);
             refreshToken := account_refresh_token account;
             error := None;
             claims := claims token |}
  | None =>
      let* now := Date_now in
      if match accessTokenExpires token with
         | Some expires => negb (expires =? 0) && (now <? expires)
         | None => false
         end
      then ret token
      else if negb (truthy_string (refreshToken token))
      then ret (set_error (Some RefreshAccessTokenError) token)
      else refreshAccessToken token
  end.

End Route.

(** Whether the exchange ended in the [catch] of [refreshAccessToken]. *)
Definition exchange_failed (r : FetchResult) : bool :=
  match r with
  | Responded status (Some _) => negb (ok status)
  | _ => true
  end.

(** Concrete data the statements are run on. *)
Definition expired_token : JWT :=
  {| accessToken := Some "old-access";
     accessTokenExpires := Some 1000;
     refreshToken := Some "refresh-1";
     error := None;
     claims := [("name", "listener")] |}.

Definition failed_token : JWT :=
  set_error (Some RefreshAccessTokenError) expired_token.

Definition fresh_tokens : TokenResponse :=
  {| access_token := "new-access"; expires_in := 3600; refresh_token := None |}.

(** A world at time 2000 whose network answers every request after 150 ms
    with [result]. *)
Definition world (result : FetchResult) : World :=
  {| clock := 2000; network := fun _ => (150%N, result); requests := [] |}.

End Auth.

(** ** The playback controller ([app/dashboard/page.tsx]) *)

Module Player.

Record Track := mkTrack {
  id : string;
  name : string;
  preview_url : option string
}.

(** The hidden [<audio>] element, as far as the handlers drive it. *)
Record Audio := mkAudio { src : string; paused : bool }.

Record State := mkState {
  currentTrack : option Track;
  isPlaying : bool;
  audioRef : option Audio
}.

Definition initial : State :=
  {| currentTrack := None;
     isPlaying := false;
     audioRef := Some {| src := ""; paused := true |} |}.

Definition set_src (u : string) (a : Audio) : Audio :=
  {| src := u; paused := paused a |}.

Definition play (a : Audio) : Audio := {| src := src a; paused := false |}.

Definition pause (a : Audio) : Audio := {| src := src a; paused := true |}.

(** Lines 103-129. The rejection handler registered on [play()] runs
    later, as [playRejected]. *)
Definition playTrack (track : Track) (s : State) : State :=
  match audioRef s with
  | Some a =>
      if truthy_string (preview_url track) then
        {| currentTrack := Some track;
           isPlaying := true;
           audioRef := Some (play (set_src (default "" (preview_url track)) a)) |}
      else
        {| currentTrack := Some track;
           isPlaying := false;
           audioRef := Some (set_src "" (pause a)) |}
  | None =>
      {| currentTrack := Some track; isPlaying := false; audioRef := None |}
  end.

(** Lines 112-115: [play()] was rejected. *)
Definition playRejected (s : State) : State :=
  {| currentTrack := currentTrack s;
     isPlaying := false;
     audioRef := audioRef s |}.

(** Lines 131-140. *)
Definition togglePlayPause (s : State) : State :=
  match audioRef s with
  | Some a =>
      {| currentTrack := currentTrack s;
         isPlaying := negb (isPlaying s);
         audioRef := Some (if isPlaying s then pause a else play a) |}
  | None => s
  end.

(** The [hasPreview] of the playback state: the current track has a
    preview ([currentTrack.preview_url] is truthy). *)
Definition hasPreview (s : State) : bool :=
  match currentTrack s with
  | Some t => truthy_string (preview_url t)
  | None => false
  end.

(** The two buttons wired to [togglePlayPause]: the one beside the track
    info is rendered only for a track with a preview (line 450), the one in
    the bottom player bar for any current track (lines 505 and 524). *)
Definition sidebar_toggle_rendered (s : State) : bool := hasPreview s.

Definition bottom_bar_toggle_rendered (s : State) : bool :=
  match currentTrack s with
  | Some _ => true
  | None => false
  end.

Definition silent_track : Track :=
  {| id := "t1"; name := "No preview"; preview_url := None |}.

End Player.

(** ** Reading the bar loop and the frame source *)

Module Bars.

Import Viz.

(** Whether [meshRefs.current[i]] holds a mesh. *)
Definition mounted (meshes : list (option Mesh)) (i : nat) : bool :=
  match meshes !! i with
  | Some (Some _) => true
  | _ => false
  end.

(** Whether the callback takes the synthetic branch (line 53 fails): no
    analyser, or [demoMode], or a falsy [audioElement?.src]. *)
Definition synthetic_mode (inp : FrameInput) : bool :=
  match analyser inp with
  | Some _ => demoMode inp || negb (truthy_string (audioSrc inp))
  | None => true
  end.

(** The bounds on height, colour and radius, checked for one sample. *)
Definition height_colour_check (sample : Z) : bool :=
  let frequency := (number_of_Z sample / 255)%float in
  (-1 <=? frequency * 2 - 1)%float && (frequency * 2 - 1 <=? 1)%float
  && (0.5 <=? (50 + frequency * 50) / 100)%float
  && ((50 + frequency * 50) / 100 <=? 1)%float
  && (0.3 <=? (30 + frequency * 40) / 100)%float
  && ((30 + frequency * 40) / 100 <=? 0.7)%float
  && (2 <=? 2 + frequency)%float && (2 + frequency <=? 3)%float.

(** The bounds on angle and hue, checked for one bar of a 128-sample
    frame. *)
Definition quarter_check (index : Z) : bool :=
  let turn := (number_of_Z index / number_of_Z 128)%float in
  (0 <=? turn * Math_PI * 2)%float
  && (turn * Math_PI * 2 <? Math_PI / 2)%float
  && (0 <=? turn * 360 / 360)%float && (turn * 360 / 360 <? 0.25)%float.

(** Scale and height for two samples, compared. *)
Definition monotone_check (s1 s2 : Z) : bool :=
  let f1 := (number_of_Z s1 / 255)%float in
  let f2 := (number_of_Z s2 / 255)%float in
  (0.1 + f1 * 3 <=? 0.1 + f2 * 3)%float
  && (0.5 + f1 * 0.5 <=? 0.5 + f2 * 0.5)%float
  && (f1 * 2 - 1 <=? f2 * 2 - 1)%float.

(** One frame of demo mode, for running statements on. *)
Definition demo_input : FrameInput :=
  {| analyser := Some [1; 2; 3]; demoMode := true;
     audioSrc := Some "https://x/preview.mp3";
     elapsedTime := 1.5; random := fun _ => 0.25%float |}.

Definition mounted_state : State :=
  {| groupRef := Some {| rotation_y := 0 |};
     meshRefs := replicate 32 (Some fresh_bar);
     time := 0; frequencyData := replicate 128 0 |}.

End Bars.

(** ** The scene around the bars (the JSX of the 32-bar [Visualizer]) *)

Module Scene.

(** [(v || 0)] for a bin read from the array: [undefined] (a bin past the
    end) falls back to 0, like a bin that is 0. *)
Definition or_zero (v : option Z) : float :=
  match v with
  | Some v => if v =? 0 then 0%float else number_of_Z v
  | None => 0%float
  end.

(** Lines 136-168: what the render derives from the [frequencyData] state. *)
Record Params := mkParams {
  cyan_light_intensity : float;
  magenta_light_intensity : float;
  sphere_radius : float;
  sphere_emissiveIntensity : float;
  ring_emissiveIntensity : float
}.

Definition render (frequencyData : list Z) : Params :=
  {| cyan_light_intensity := (1 + or_zero (frequencyData !! 10%nat) / 255)%float;
     magenta_light_intensity := (1 + or_zero (frequencyData !! 20%nat) / 255)%float;
     sphere_radius := (0.5 + or_zero (frequencyData !! 2%nat) / 500)%float;
     sphere_emissiveIntensity :=
       (or_zero (frequencyData !! 2%nat) / 255 * 0.5)%float;
     ring_emissiveIntensity :=
       (or_zero (frequencyData !! 15%nat) / 255 * 0.3)%float |}.

(** The bounds a bin is checked against, in each of its uses. *)
Definition bin_check (v : option Z) : bool :=
  let b := or_zero v in
  (1 <=? 1 + b / 255)%float && (1 + b / 255 <=? 2)%float
  && (0.5 <=? 0.5 + b / 500)%float && (0.5 + b / 500 <=? 1.01)%float
  && (0 <=? b / 255 * 0.5)%float && (b / 255 * 0.5 <=? 0.5)%float
  && (0 <=? b / 255 * 0.3)%float && (b / 255 * 0.3 <=? 0.3)%float.

End Scene.

(** ** The session callback and the page guards *)

Module Session.

Import Auth.

(** The [Session] of [types/next-auth.d.ts]; [user] stands for the keys
    the callback leaves alone. *)
Record Session := mkSession {
  session_accessToken : option string;
  session_error : option string;
  user : list (string * string)
}.

(** [route.ts] lines 114-122: the [session] callback. *)
Definition session (s : Session) (token : JWT) : Session :=
  {| session_accessToken := accessToken token;
     session_error :=
       if truthy_string (error token) then error token else session_error s;
     user := user s |}.

(** [page.tsx] lines 181-206: what the dashboard page renders. *)
Inductive View := SignInPrompt | SessionExpired | Dashboard.

Definition view (session : option Session) : View :=
  match session with
  | None => SignInPrompt
  | Some s =>
      match session_error s with
      | Some e =>
          if String.eqb e RefreshAccessTokenError then SessionExpired
          else Dashboard
      | None => Dashboard
      end
  end.

(** [session?.accessToken] *)
Definition token_of (session : option Session) : option string :=
  match session with
  | Some s => session_accessToken s
  | None => None
  end.

(** A session as NextAuth hands it to the callback: no token, no error. *)
Definition blank_session : Session :=
  {| session_accessToken := None; session_error := None;
     user := [("name", "listener")] |}.

End Session.

(** ** The playlist proxy ([app/api/spotify/playlist/[id]/route.ts]) *)

Module Proxy.

Import Session.

Record Request := mkRequest { url : string; authorization : string }.

(** What the upstream [fetch] and [response.json()] come to, for a body of
    type [D]. *)
Inductive Upstream (D : Type) :=
| Rejected
| Responded (status : Z) (json : option D).

Arguments Rejected {D}.
Arguments Responded {D} status json.

(** The JSON body of the proxy's answer: [{error}] or the upstream data. *)
Inductive Body (D : Type) :=
| ErrorBody (error : string)
| DataBody (data : D).

Arguments ErrorBody {D} error.
Arguments DataBody {D} data.

Record Response (D : Type) := mkResponse { status : Z; body : Body D }.

Arguments mkResponse {D} status body.
Arguments status {D} r.
Arguments body {D} r.

Definition tracks_request (id token : string) : Request :=
  {| url := "https://api.spotify.com/v1/playlists/" ++ id ++ "/tracks?limit=50";
     authorization := "Bearer " ++ token |}.

(** Lines 4-37: [GET]. The result is the response and the requests sent
    upstream. [NextResponse.json(data)] answers with status 200. *)
Definition GET {D} (session : option Session) (id : string)
  (upstream : Request -> Upstream D) : Response D * list Request :=
  if negb (truthy_string (token_of session)) then
    ({| status := 401; body := ErrorBody "Unauthorized" |}, [])
  else
    let req := tracks_request id (default "" (token_of session)) in
    (match upstream req with
     | Responded st (Some data) =>
         if Auth.ok st then {| status := 200; body := DataBody data |}
         else {| status := 500; body := ErrorBody "Failed to fetch playlist tracks" |}
     | Responded _ None | Rejected =>
         {| status := 500; body := ErrorBody "Failed to fetch playlist tracks" |}
     end, [req]).

End Proxy.

(** ** Search and playlists on the dashboard page ([app/dashboard/page.tsx]) *)

Module Search.

Import Player Session.

Record Playlist := mkPlaylist {
  playlist_id : string;
  playlist_name : string
}.

(** [Array.prototype.sort] with a comparator: the sort is stable, so with
    a consistent comparator the result is the one insertion in order gives.
    [x] moves behind [y] only when [cmp x y > 0]. *)
Section Sort.

Context {A : Type} (cmp : A -> A -> Z).

Fixpoint insert_sorted (a : A) (l : list A) : list A :=
  match l with
  | [] => [a]
  | b :: l' => if 0 <? cmp a b then b :: insert_sorted a l' else a :: l
  end.

Definition Array_sort (l : list A) : list A := foldr insert_sorted [] l.

End Sort.

Definition has_preview (t : Track) : bool := truthy_string (preview_url t).

(** Lines 74-78: the comparator of the track sort. *)
Definition by_preview (a b : Track) : Z :=
  if has_preview a && negb (has_preview b) then -1
  else if negb (has_preview a) && has_preview b then 1
  else 0.

(** Line 73: [track && track.id && track.name]. An entry is [None] where
    the API sent [null]; an absent [id] or [name] is falsy like the empty
    string, and is written as it. *)
Definition valid_track (t : option Track) : option Track :=
  match t with
  | Some t =>
      if truthy_string (Some (id t)) && truthy_string (Some (name t))
      then Some t else None
  | None => None
  end.

(** Line 82: [playlist && playlist.id && playlist.name]. *)
Definition valid_playlist (p : option Playlist) : option Playlist :=
  match p with
  | Some p =>
      if truthy_string (Some (playlist_id p))
         && truthy_string (Some (playlist_name p))
      then Some p else None
  | None => None
  end.

(** The body of a search reply: [data.tracks?.items] and
    [data.playlists?.items], [None] where the key is absent. *)
Record SearchData := mkSearchData {
  tracks_items : option (list (option Track));
  playlists_items : option (list (option Playlist))
}.

Record Results := mkResults {
  tracks : list Track;
  playlists : list Playlist
}.

(** Lines 72-90: the results built from a reply. *)
Definition results_of (data : SearchData) : Results :=
  {| tracks := Array_sort by_preview
                 (omap valid_track (default [] (tracks_items data)));
     playlists := omap valid_playlist (default [] (playlists_items data)) |}.


(** The page state the search and playlist handlers write. [alerts] are
    the messages shown with [alert], [href] the last assignment to
    [window.location.href]. *)
Record Page := mkPage {
  searchResults : Results;
  loading : bool;
  selectedPlaylist : option Playlist;
  playlistTracks : list Track;
  loadingPlaylist : bool;
  alerts : list string;
  href : option string
}.

Definition initial_page : Page :=
  {| searchResults := {| tracks := []; playlists := [] |};
     loading := false;
     selectedPlaylist := None;
     playlistTracks := [];
     loadingPlaylist := false;
     alerts := [];
     href := None |}.

Definition set_loading (b : bool) (p : Page) : Page :=
  {| searchResults := searchResults p; loading := b;
     selectedPlaylist := selectedPlaylist p;
     playlistTracks := playlistTracks p;
     loadingPlaylist := loadingPlaylist p;
     alerts := alerts p; href := href p |}.

Definition set_searchResults (r : Results) (p : Page) : Page :=
  {| searchResults := r; loading := loading p;
     selectedPlaylist := selectedPlaylist p;
     playlistTracks := playlistTracks p;
     loadingPlaylist := loadingPlaylist p;
     alerts := alerts p; href := href p |}.

Definition expire (p : Page) : Page :=
  {| searchResults := searchResults p; loading := loading p;
     selectedPlaylist := selectedPlaylist p;
     playlistTracks := playlistTracks p;
     loadingPlaylist := loadingPlaylist p;
     alerts := alerts p ++ ["Your session has expired. Please sign in again."];
     href := Some "/" |}.

Section Handlers.

(** [String.prototype.trim] and [encodeURIComponent], as the engine has
    them. *)
Variables (trim encodeURIComponent : string -> string).

Definition search_request (query token : string) : Proxy.Request :=
  {| Proxy.url := "https://api.spotify.com/v1/search?q="
                  ++ encodeURIComponent query ++ "&type=track,playlist&limit=20";
     Proxy.authorization := "Bearer " ++ token |}.

(** Line 55: the guard of [searchSpotify]. *)
Definition search_blocked (session : option Session) (query : string) : bool :=
  negb (truthy_string (Some (trim query)))
  || negb (truthy_string (token_of session)).

(** Lines 57-100, after the reply: the [try] body, then [finally]. *)
Definition search_settle (reply : Proxy.Upstream SearchData) (p : Page) : Page :=
  set_loading false
    match reply with
    | Proxy.Responded st json =>
        if Auth.ok st then
          match json with
          | Some data => set_searchResults (results_of data) p
          | None => p
          end
        else if st =? 401 then expire p
        else p
    | Proxy.Rejected => p
    end.

(** Lines 54-101: [searchSpotify]. The result is the page once the search
    has settled and the requests sent; while the request is in flight the
    page is [set_loading true p]. *)
Definition searchSpotify (session : option Session) (query : string)
  (network : Proxy.Request -> Proxy.Upstream SearchData) (p : Page)
  : Page * list Proxy.Request :=
  if search_blocked session query then (p, [])
  else
    let req := search_request query (default "" (token_of session)) in
    (search_settle (network req) (set_loading true p), [req]).

End Handlers.

(** A playlist item of the tracks reply: [item.track] may be [null]. An
    entry of [items] is [None] where the reply holds [null]. *)
Record PlaylistItem := mkPlaylistItem { item_track : option Track }.

Record PlaylistData := mkPlaylistData {
  items : option (list (option PlaylistItem))
}.

(** Lines 150-152: [data.items.filter(...).map(...)]. Reading [.filter] of
    an absent [items], or [.track] of a [null] item, throws ([None]). *)
Fixpoint previewable (l : list (option PlaylistItem)) : option (list Track) :=
  match l with
  | [] => Some []
  | None :: _ => None
  | Some item :: l' =>
      match previewable l' with
      | Some ts =>
          match item_track item with
          | Some t => if has_preview t then Some (t :: ts) else Some ts
          | None => Some ts
          end
      | None => None
      end
  end.

Definition playlist_tracks_of (data : PlaylistData) : option (list Track) :=
  match items data with
  | Some l => previewable l
  | None => None
  end.

Definition set_playlist (sel : option Playlist) (ts : list Track) (b : bool)
  (p : Page) : Page :=
  {| searchResults := searchResults p; loading := loading p;
     selectedPlaylist := sel;
     playlistTracks := ts;
     loadingPlaylist := b;
     alerts := alerts p; href := href p |}.

Definition playlist_request (pl : Playlist) : string :=
  "/api/spotify/playlist/" ++ playlist_id pl.

(** Lines 142-160: [selectPlaylist], once the reply is in; while the
    request is in flight the page has the playlist selected and
    [loadingPlaylist = true]. *)
Definition selectPlaylist (pl : Playlist)
  (network : string -> Proxy.Upstream PlaylistData) (p : Page) : Page :=
  let tracks :=
    match network (playlist_request pl) with
    | Proxy.Responded st (Some data) =>
        if Auth.ok st then
          match playlist_tracks_of data with
          | Some ts => ts
          | None => playlistTracks p
          end
        else playlistTracks p
    | _ => playlistTracks p
    end in
  set_playlist (Some pl) tracks false p.

(** What the page's [fetch] of the proxy route comes to, given the proxy's
    answer: the client reads [.items] of the body, which an [{error}] body
    does not have. *)
Definition reply_of_proxy (r : Proxy.Response PlaylistData)
  : Proxy.Upstream PlaylistData :=
  Proxy.Responded (Proxy.status r)
    (Some match Proxy.body r with
          | Proxy.DataBody d => d
          | Proxy.ErrorBody _ => {| items := None |}
          end).

(** Lines 485-488: the props the page passes to the [Visualizer], which is
    rendered only with a current track. *)
Definition demoMode_prop (s : Player.State) : option bool :=
  match currentTrack s with
  | Some t => Some (negb (has_preview t) || negb (isPlaying s))
  | None => None
  end.

(** Concrete data the statements are run on. *)
Definition preview_track : Track :=
  {| id := "t2"; name := "With preview";
     preview_url := Some "https://x/preview.mp3" |}.

Definition sample_search : SearchData :=
  {| tracks_items := Some [Some silent_track; None; Some preview_track];
     playlists_items := None |}.

Definition sample_playlist : Playlist :=
  {| playlist_id := "p1"; playlist_name := "Mix" |}.

Definition sample_playlist_data : PlaylistData :=
  {| items := Some [Some {| item_track := Some silent_track |};
                    Some {| item_track := None |};
                    Some {| item_track := Some preview_track |}] |}.

(** A network that answers every playlist request with
    [sample_playlist_data]. *)
Definition sample_reply (_ : string) : Proxy.Upstream PlaylistData :=
  Proxy.Responded 200 (Some sample_playlist_data).

Definition signed_in : Session :=
  {| session_accessToken := Some "access-1"; session_error := None;
     user := [("name", "listener")] |}.

End Search.

(** * Properties *)

(** ** Facts about binary64 values *)

Section NumberFacts.

Lemma digits2_pos_bound (m : positive) :
  Z.pos m < 2 ^ Z.pos (SpecFloat.digits2_pos m).
Proof.
  induction m as [m IH | m IH |]; cbn [SpecFloat.digits2_pos].
  - rewrite Pos2Z.inj_succ, Z.pow_succ_r by lia. lia.
  - rewrite Pos2Z.inj_succ, Z.pow_succ_r by lia. lia.
  - reflexivity.
Qed.

(** The mantissa of a binary64 value has at most 53 bits. *)
Lemma mantissa_bound (a : float) s m e :
  Prim2SF a = S754_finite s m e -> Z.pos m < 2 ^ 53.
Proof.
  intros Ha. pose proof (Prim2SF_valid a) as Hv. rewrite Ha in Hv.
  cbn [SpecFloat.valid_binary] in Hv.
  unfold SpecFloat.bounded, SpecFloat.canonical_mantissa, SpecFloat.fexp in Hv.
  apply andb_prop in Hv as [Hc _]. apply Z.eqb_eq in Hc.
  pose proof (digits2_pos_bound m) as Hd.
  assert (Hle : Z.pos (SpecFloat.digits2_pos m) <= 53) by (unfold prec in Hc; lia).
  eapply Z.lt_le_trans; [exact Hd|]. apply Z.pow_le_mono_r; lia.
Qed.

Lemma is_nan_spec (x : float) :
  is_nan x = match Prim2SF x with S754_nan => true | _ => false end.
Proof.
  unfold is_nan. rewrite FloatAxioms.eqb_spec. unfold SFeqb.
  destruct (Prim2SF x) as [[] | [] | | [] m e]; cbn; try reflexivity;
    rewrite Z.compare_refl, Pos.compare_cont_refl; reflexivity.
Qed.

Lemma Math_min_255 (x : float) :
  Math_min 255 x =
  if is_nan x then nan else if (255 <? x)%float then 255%float else x.
Proof.
  unfold Math_min. change (is_nan 255) with false. change (get_sign 255) with false.
  cbn [orb]. destruct (is_nan x), (255 <? x)%float, (x <? 255)%float; reflexivity.
Qed.

Lemma Math_max_0 (x : float) :
  Math_max 0 x =
  if is_nan x then nan else if (0 <? x)%float then x else 0%float.
Proof.
  unfold Math_max. change (is_nan 0) with false. change (get_sign 0) with false.
  cbn [orb]. destruct (is_nan x), (0 <? x)%float, (x <? 0)%float; reflexivity.
Qed.

(** A number strictly above 0 and not above 255, as a mantissa and an
    exponent. *)
Lemma between_0_255 (x : float) :
  (0 <? x)%float = true -> (255 <? x)%float = false -> is_nan x = false ->
  exists m e, Prim2SF x = S754_finite false m e /\
    (e < -45 \/ (e = -45 /\ Z.pos m <= 8972014882652160)).
Proof.
  rewrite !FloatAxioms.ltb_spec, is_nan_spec.
  change (Prim2SF 0) with (S754_zero false).
  change (Prim2SF 255) with SF255.
  destruct (Prim2SF x) as [sx | sx | | sx m e]; unfold SFltb, SF255, SFcompare;
    try discriminate; destruct sx; try discriminate.
  intros _ Hle _. exists m, e. split; [reflexivity|].
  destruct (Z.compare_spec (-45) e) as [He | He | He]; try discriminate.
  - right. split; [lia|]. subst e.
    change (Pos.compare_cont Eq 8972014882652160 m)
      with (Pos.compare 8972014882652160 m) in Hle.
    destruct (Pos.compare 8972014882652160 m) eqn:Hc; try discriminate.
    + apply Pos.compare_eq in Hc. subst m. apply Z.le_refl.
    + apply Pos.compare_gt_iff in Hc. apply Z.lt_le_incl. exact Hc.
  - left. lia.
Qed.

(** [Math.max(0, Math.min(255, x))] is NaN, 0, 255, or [x] itself when
    [x] lies between the two. *)
Lemma clamp_cases (x : float) :
  let c := Math_max 0 (Math_min 255 x) in
  c = nan \/ c = 0%float \/ c = 255%float \/
  (c = x /\ exists m e, Prim2SF x = S754_finite false m e /\
      (e < -45 \/ (e = -45 /\ Z.pos m <= 8972014882652160))).
Proof.
  cbv zeta. rewrite Math_min_255, Math_max_0.
  destruct (is_nan x) eqn:Hn; [left; reflexivity|].
  destruct (255 <? x)%float eqn:Hhi.
  - right; right; left. reflexivity.
  - rewrite Hn. destruct (0 <? x)%float eqn:Hlo.
    + right; right; right. split; [reflexivity|]. now apply between_0_255.
    + right; left. reflexivity.
Qed.

Lemma truncate_clamped m e :
  Z.pos m < 2 ^ 53 ->
  e < -45 \/ (e = -45 /\ Z.pos m <= 8972014882652160) ->
  0 <= Z.pos m / 2 ^ (- e) <= 255.
Proof.
  intros Hm He.
  assert (H46 : 2 ^ 46 <= 2 ^ (- e) \/ e = -45).
  { destruct He as [He | [He _]]; [left | right; exact He].
    apply Z.pow_le_mono_r; lia. }
  assert (Hpos : 0 < 2 ^ (- e)) by (apply Z.pow_pos_nonneg; lia).
  split; [apply Z.div_pos; lia|].
  apply Z.lt_succ_r, Z.div_lt_upper_bound; [exact Hpos|].
  destruct He as [He | [-> Hle]].
  - destruct H46 as [H46 | ->]; [|lia].
    apply Z.lt_le_trans with (2 ^ 46 * 128); [exact Hm|].
    apply Z.le_trans with (2 ^ (- e) * 128).
    + apply Z.mul_le_mono_nonneg_r; [lia | exact H46].
    + apply Z.mul_le_mono_nonneg_l; lia.
  - change (2 ^ (- -45)) with 35184372088832. lia.
Qed.

End NumberFacts.

(** ** The visualizer *)

Section VisualizerSpec.

Import Viz.

Lemma scale_check_all : forallb scale_check (seqZ 0 256) = true.
Proof. vm_compute. reflexivity. Qed.

Lemma scale_check_sample (sample : Z) :
  0 <= sample <= 255 -> scale_check sample = true.
Proof.
  intros Hs. apply Is_true_true.
  assert (Hall : Forall (fun s => Is_true (scale_check s)) (seqZ 0 256)).
  { apply forallb_True, Is_true_true, scale_check_all. }
  rewrite Forall_forall in Hall. apply Hall, elem_of_seqZ. lia.
Qed.

(** What the bar loop leaves at index [i]. *)
Lemma update_meshes_lookup Math_sin Math_cos dataArray meshes i :
  update_meshes Math_sin Math_cos dataArray meshes !! i =
  match meshes !! i with
  | Some (Some m) =>
      match dataArray !! i with
      | Some sample =>
          Some (Some (update_mesh Math_sin Math_cos (length dataArray) i sample m))
      | None => Some (Some m)
      end
  | other => other
  end.
Proof.
  unfold update_meshes. rewrite list_lookup_imap.
  destruct (meshes !! i) as [[m|]|]; cbn; [|reflexivity..].
  destruct (dataArray !! i); reflexivity.
Qed.

Lemma synthetic_frame_length Math_sin time draws :
  length (synthetic_frame Math_sin time draws) = 128%nat.
Proof. unfold synthetic_frame. rewrite length_map, length_seq. reflexivity. Qed.

Lemma synthetic_frame_lookup Math_sin time draws i :
  (i < 128)%nat ->
  synthetic_frame Math_sin time draws !! i
  = Some (synthetic_sample Math_sin time (draws i) i).
Proof.
  intros Hi. unfold synthetic_frame.
  rewrite list_lookup_fmap, lookup_seq_lt by exact Hi. reflexivity.
Qed.

(** With the group unmounted the callback returns at once. *)
Lemma useFrame_unmounted Math_sin Math_cos inp st :
  groupRef st = None -> useFrame Math_sin Math_cos inp st = st.
Proof. intros H. unfold useFrame. rewrite H. reflexivity. Qed.

Lemma useFrame_meshRefs Math_sin Math_cos inp st g :
  groupRef st = Some g ->
  meshRefs (useFrame Math_sin Math_cos inp st)
  = update_meshes Math_sin Math_cos (next_frame Math_sin inp st) (meshRefs st).
Proof. intros H. unfold useFrame. rewrite H. reflexivity. Qed.

(** C2. For a frame of at least 32 samples, each an integer in [0,255],
    one pass of the bar loop leaves every mounted bar [i < 32] with
    [scale.y] in [0.1, 3.1] and [scale.x = scale.z] in [0.5, 1.0]. *)
Theorem bar_scale_bounds Math_sin Math_cos dataArray meshes i mesh :
  (32 <= length dataArray)%nat ->
  Forall (fun sample => 0 <= sample <= 255) dataArray ->
  (i < numBars)%nat ->
  meshes !! i = Some (Some mesh) ->
  exists mesh',
    update_meshes Math_sin Math_cos dataArray meshes !! i = Some (Some mesh')
    /\ (0.1 <=? y (scale mesh'))%float = true
    /\ (y (scale mesh') <=? 3.1)%float = true
    /\ x (scale mesh') = z (scale mesh')
    /\ (0.5 <=? x (scale mesh'))%float = true
    /\ (x (scale mesh') <=? 1)%float = true.
Proof.
  intros Hlen Hrange Hi Hmesh. unfold numBars in Hi.
  destruct (lookup_lt_is_Some_2 dataArray i) as [sample Hsample]; [lia|].
  pose proof (Forall_lookup_1 _ _ _ _ Hrange Hsample) as Hs.
  apply scale_check_sample in Hs. unfold scale_check in Hs.
  cbv zeta in Hs. rewrite !andb_true_iff in Hs.
  destruct Hs as [[[Hy1 Hy2] Hx1] Hx2].
  eexists. rewrite update_meshes_lookup, Hmesh, Hsample.
  split; [reflexivity|]. cbn [update_mesh scale x y z].
  repeat split; assumption.
Qed.

Lemma bar_scale_bounds_witness :
  exists mesh',
    update_meshes taylor_sin taylor_cos (replicate 32 255) [Some fresh_bar]
      !! 0%nat = Some (Some mesh')
    /\ (0.1 <=? y (scale mesh'))%float = true
    /\ (y (scale mesh') <=? 3.1)%float = true
    /\ x (scale mesh') = z (scale mesh')
    /\ (0.5 <=? x (scale mesh'))%float = true
    /\ (x (scale mesh') <=? 1)%float = true.
Proof.
  apply (bar_scale_bounds taylor_sin taylor_cos (replicate 32 255) _ 0%nat
           fresh_bar).
  - vm_compute. lia.
  - apply Forall_replicate. lia.
  - unfold numBars. lia.
  - reflexivity.
Defined.

(** C10. A bar whose index is at or past the end of the frame (every bar
    from the frame's length on, for a frame shorter than 32) is left
    exactly as it was: scale, colour, position and rotation. *)
Theorem bars_past_frame_unchanged Math_sin Math_cos dataArray meshes i :
  (length dataArray < numBars)%nat ->
  (length dataArray <= i)%nat ->
  update_meshes Math_sin Math_cos dataArray meshes !! i = meshes !! i.
Proof.
  intros _ Hi. rewrite update_meshes_lookup.
  rewrite (lookup_ge_None_2 dataArray i Hi).
  destruct (meshes !! i) as [[m|]|]; reflexivity.
Qed.

Lemma bars_past_frame_unchanged_witness :
  update_meshes taylor_sin taylor_cos [10; 20]
    (replicate 32 (Some fresh_bar)) !! 5%nat
  = replicate 32 (Some fresh_bar) !! 5%nat.
Proof.
  apply bars_past_frame_unchanged.
  - unfold numBars. cbn. lia.
  - cbn. lia.
Defined.

(** What a store of a clamped value into the frame keeps: its integer
    part, or 0 for NaN. *)
Lemma ToUint8_clamp (a : float) :
  let v := Math_max 0 (Math_min 255 a) in
  0 <= ToUint8 v <= 255 /\
  match value v with
  | Some q => ToUint8 v = Qfloor q
  | None => is_nan v = true /\ ToUint8 v = 0
  end.
Proof.
  cbv zeta. destruct (clamp_cases a) as [-> | [-> | [-> | [-> (m & e & Ha & He)]]]].
  - vm_compute. repeat split; congruence.
  - vm_compute. repeat split; congruence.
  - vm_compute. repeat split; congruence.
  - pose proof (mantissa_bound a _ _ _ Ha) as Hm.
    pose proof (truncate_clamped m e Hm He) as Ht.
    assert (Hneg : (0 <=? e) = false) by (apply Z.leb_gt; lia).
    assert (Hpos : 0 < 2 ^ (- e)) by (apply Z.pow_pos_nonneg; lia).
    unfold ToUint8, truncate, value. rewrite Ha, Hneg.
    rewrite Z.mod_small by lia. split; [lia|].
    unfold Qfloor. rewrite Z2Pos.id by exact Hpos. reflexivity.
Qed.

(** A synthetic frame is a frame the bar loop is specified for: 128
    samples, each in [0,255]. *)
Lemma synthetic_frame_range Math_sin time draws :
  Forall (fun sample => 0 <= sample <= 255) (synthetic_frame Math_sin time draws).
Proof.
  unfold synthetic_frame. apply Forall_fmap, Forall_forall. intros i _.
  apply (ToUint8_clamp _).
Qed.

(** C3 (amended). Every synthetic sample is an integer in [0,255], and it
    is the integer part of
    [clamp(0, 255, 80 + 30 sin(2t + 0.1 i) + 50 sin(0.5 t + 0.05 i) + jitter)]:
    the store into the [Uint8Array] drops the fraction, and turns a NaN
    into 0. *)
Theorem synthetic_sample_spec Math_sin time draw i :
  let v := synthetic_value Math_sin time draw i in
  let s := synthetic_sample Math_sin time draw i in
  0 <= s <= 255 /\
  match value v with
  | Some q => s = Qfloor q
  | None => is_nan v = true /\ s = 0
  end.
Proof.
  unfold synthetic_sample, synthetic_value. apply ToUint8_clamp.
Qed.

(** At [t = 0], sample 0 and a draw of 0.125 the clamped value is 82.5,
    whatever the engine's sine is away from 0, and the frame holds 82. *)
Lemma synthetic_sample_at_origin (Math_sin : float -> float) :
  Math_sin 0%float = 0%float ->
  synthetic_value Math_sin 0 0.125 0 = 82.5%float
  /\ synthetic_sample Math_sin 0 0.125 0 = 82.
Proof.
  intros H0. unfold synthetic_sample.
  assert (Hv : synthetic_value Math_sin 0 0.125 0 = 82.5%float).
  { unfold synthetic_value.
    change (0 * 2 + number_of_nat 0 * 0.1)%float with 0%float.
    change (0 * 0.5 + number_of_nat 0 * 0.05)%float with 0%float.
    rewrite H0. vm_compute. reflexivity. }
  rewrite Hv. split; [reflexivity | vm_compute; reflexivity].
Qed.

(** C3 as stated fails: the sample is not the clamped value itself. *)
Lemma synthetic_sample_not_clamp :
  ~ (forall Math_sin : float -> float, Math_sin 0%float = 0%float ->
     forall (time draw : float) (i : nat),
       (0 <=? time)%float = true ->
       (0 <=? draw * 20)%float = true -> (draw * 20 <? 20)%float = true ->
       (i < 128)%nat ->
       number_of_Z (synthetic_sample Math_sin time draw i)
       = synthetic_value Math_sin time draw i).
Proof.
  intros H.
  specialize (H taylor_sin eq_refl 0%float 0.125%float 0%nat
                eq_refl eq_refl eq_refl ltac:(lia)).
  destruct (synthetic_sample_at_origin taylor_sin eq_refl) as [Hv Hs].
  rewrite Hv, Hs in H. vm_compute in H.
  apply (f_equal Prim2SF) in H. vm_compute in H. discriminate.
Qed.

End VisualizerSpec.

(** ** The token lifecycle *)

Section TokenSpec.

Import Auth.

Section Route.

Variables client_id client_secret : string.

(** Case analysis on what the network answers in world [w]. *)
Ltac by_exchange w :=
  destruct (network w _) as [elapsed [|status [r|]]].

(** [refreshAccessToken] always sends its one request, and nothing else. *)
Lemma refreshAccessToken_requests token w :
  requests (snd (refreshAccessToken client_id client_secret token w))
  = requests w ++ [refresh_request client_id client_secret token].
Proof.
  unfold Auth.refreshAccessToken, bind, fetch.
  by_exchange w; cbn; try reflexivity.
  destruct (ok status); reflexivity.
Qed.

(** The token [refreshAccessToken] returns, by the result of the exchange. *)
Lemma refreshAccessToken_result token w :
  fst (refreshAccessToken client_id client_secret token w) =
  match network w (refresh_request client_id client_secret token) with
  | (elapsed, Responded status (Some r)) =>
      if ok status then
        {| accessToken := Some (access_token r);
           accessTokenExpires := Some (Z.of_N (clock w + elapsed) + expires_in r * 1000);
           refreshToken := match refresh_token r with
                           | Some t => Some t
                           | None => refreshToken token
                           end;
           error := error token;
           claims := claims token |}
      else set_error (Some RefreshAccessTokenError) token
  | _ => set_error (Some RefreshAccessTokenError) token
  end.
Proof.
  unfold Auth.refreshAccessToken, bind, fetch.
  by_exchange w; cbn; try reflexivity.
  destruct (ok status); reflexivity.
Qed.

(** An expired token goes past the early return of the callback. *)
Lemma jwt_expired token w expires :
  accessTokenExpires token = Some expires ->
  expires <= Z.of_N (clock w) ->
  jwt client_id client_secret token None w =
  if negb (truthy_string (refreshToken token))
  then (set_error (Some RefreshAccessTokenError) token, w)
  else refreshAccessToken client_id client_secret token w.
Proof.
  intros He Hle. unfold Auth.jwt, bind, Date_now. rewrite He.
  replace (Z.of_N (clock w) <? expires) with false
    by (symmetry; apply Z.ltb_ge, Hle).
  rewrite andb_false_r. destruct (truthy_string (refreshToken token)); reflexivity.
Qed.

(** C5. A token whose expiry is present and still ahead of the clock
    comes back from a validity check exactly as it went in, and the
    world is as before: no request was sent. *)
Theorem jwt_valid_unchanged token w expires :
  accessTokenExpires token = Some expires ->
  Z.of_N (clock w) < expires ->
  jwt client_id client_secret token None w = (token, w).
Proof.
  intros He Hlt. unfold Auth.jwt, bind, Date_now. rewrite He.
  replace (expires =? 0) with false by (symmetry; apply Z.eqb_neq; lia).
  replace (Z.of_N (clock w) <? expires) with true
    by (symmetry; apply Z.ltb_lt, Hlt).
  reflexivity.
Qed.

(** C6. After a 2xx reply the token carries the reply's access token,
    the expiry [now + expires_in * 1000] with [now] read once the reply
    is in, and the reply's refresh token if it has one, else the old
    one. *)
Theorem refresh_success token w elapsed status r :
  network w (refresh_request client_id client_secret token)
  = (elapsed, Responded status (Some r)) ->
  ok status = true ->
  let token' := fst (refreshAccessToken client_id client_secret token w) in
  let w' := snd (refreshAccessToken client_id client_secret token w) in
  let now := Z.of_N (clock w') in
  accessToken token' = Some (access_token r)
  /\ accessTokenExpires token' = Some (now + expires_in r * 1000)
  /\ refreshToken token' = match refresh_token r with
                           | Some t => Some t
                           | None => refreshToken token
                           end.
Proof.
  intros Hnet Hok. cbv zeta. rewrite refreshAccessToken_result, Hnet, Hok.
  unfold Auth.refreshAccessToken, bind, fetch. rewrite Hnet. cbn.
  rewrite Hok. cbn. repeat split; reflexivity.
Qed.

(** C9. When the exchange fails the token comes back with
    [accessToken], [accessTokenExpires], [refreshToken] (and every other
    key) as they were, and [error] set to [RefreshAccessTokenError]. *)
Theorem refresh_failure_atomic token w :
  exchange_failed
    (snd (network w (refresh_request client_id client_secret token))) = true ->
  let token' := fst (refreshAccessToken client_id client_secret token w) in
  accessToken token' = accessToken token
  /\ accessTokenExpires token' = accessTokenExpires token
  /\ refreshToken token' = refreshToken token
  /\ claims token' = claims token
  /\ error token' = Some RefreshAccessTokenError.
Proof.
  intros Hfail. cbv zeta. rewrite refreshAccessToken_result.
  by_exchange w; cbn in Hfail |- *; try (repeat split; reflexivity).
  apply negb_true_iff in Hfail. rewrite Hfail. repeat split; reflexivity.
Qed.

(** C4 (amended). For a token whose expiry has passed, the validity
    check answers with [error = RefreshAccessTokenError] exactly when
    the refresh token is missing or empty, or the exchange fails, or
    the token already carried that error; a held refresh token is sent
    to the token endpoint, and without one nothing is sent. *)
Theorem jwt_expired_error token w expires :
  accessTokenExpires token = Some expires ->
  expires <= Z.of_N (clock w) ->
  let token' := fst (jwt client_id client_secret token None w) in
  let w' := snd (jwt client_id client_secret token None w) in
  (error token' = Some RefreshAccessTokenError <->
     truthy_string (refreshToken token) = false
     \/ exchange_failed
          (snd (network w (refresh_request client_id client_secret token))) = true
     \/ error token = Some RefreshAccessTokenError)
  /\ (truthy_string (refreshToken token) = true ->
      requests w' = requests w ++ [refresh_request client_id client_secret token])
  /\ (truthy_string (refreshToken token) = false -> requests w' = requests w).
Proof.
  intros He Hle. cbv zeta. rewrite (jwt_expired token w expires He Hle).
  destruct (truthy_string (refreshToken token)) eqn:Hheld; cbn [negb].
  - split; [|split; [intros _; apply refreshAccessToken_requests | discriminate]].
    rewrite refreshAccessToken_result.
    by_exchange w; cbn;
      try (split; [intros _; right; left; reflexivity | reflexivity]).
    destruct (ok status); cbn.
    + split; [intros H; right; right; exact H|].
      intros [H | [H | H]]; [discriminate.. | exact H].
    + split; [intros _; right; left; reflexivity | reflexivity].
  - cbn. split; [split; [intros _; left; reflexivity | reflexivity]|].
    split; [discriminate | reflexivity].
Qed.

(** C8 (amended). On sign-in the new token records the provider's
    access and refresh tokens, expires at [now + expires_in * 1000]
    with 3600 seconds standing in when [expires_in] is omitted or 0,
    and has no error; nothing is sent. *)
Theorem jwt_sign_in token account w :
  let token' := fst (jwt client_id client_secret token (Some account) w) in
  let seconds := match account_expires_in account with
                 | Some n => if n =? 0 then 3600 else n
                 | None => 3600
                 end in
  accessToken token' = account_access_token account
  /\ refreshToken token' = account_refresh_token account
  /\ accessTokenExpires token' = Some (Z.of_N (clock w) + seconds * 1000)
  /\ error token' = None
  /\ snd (jwt client_id client_secret token (Some account) w) = w.
Proof.
  cbv zeta. unfold Auth.jwt, bind, Date_now, ret. cbn.
  repeat split; reflexivity.
Qed.

End Route.

Lemma jwt_valid_unchanged_witness :
  jwt "id" "secret" expired_token None
    {| clock := 500; network := fun _ => (0%N, FetchRejected); requests := [] |}
  = (expired_token,
     {| clock := 500; network := fun _ => (0%N, FetchRejected); requests := [] |}).
Proof.
  apply (jwt_valid_unchanged "id" "secret" expired_token _ 1000);
    [reflexivity | cbn; lia].
Defined.

Lemma refresh_success_witness :
  let w := world (Responded 200 (Some fresh_tokens)) in
  let token' := fst (refreshAccessToken "id" "secret" expired_token w) in
  accessToken token' = Some "new-access"
  /\ accessTokenExpires token' = Some (2150 + 3600 * 1000)
  /\ refreshToken token' = Some "refresh-1".
Proof.
  exact (refresh_success "id" "secret" expired_token
           (world (Responded 200 (Some fresh_tokens))) 150%N 200 fresh_tokens
           eq_refl eq_refl).
Defined.

Lemma refresh_failure_atomic_witness :
  let w := world (Responded 400 None) in
  let token' := fst (refreshAccessToken "id" "secret" expired_token w) in
  accessToken token' = Some "old-access"
  /\ accessTokenExpires token' = Some 1000
  /\ refreshToken token' = Some "refresh-1"
  /\ claims token' = [("name", "listener")]
  /\ error token' = Some RefreshAccessTokenError.
Proof.
  exact (refresh_failure_atomic "id" "secret" expired_token
           (world (Responded 400 None)) eq_refl).
Defined.

Lemma jwt_expired_error_witness :
  let w := world (Responded 400 None) in
  let token' := fst (jwt "id" "secret" expired_token None w) in
  let w' := snd (jwt "id" "secret" expired_token None w) in
  (error token' = Some RefreshAccessTokenError <->
     truthy_string (refreshToken expired_token) = false
     \/ exchange_failed
          (snd (network w (refresh_request "id" "secret" expired_token))) = true
     \/ error expired_token = Some RefreshAccessTokenError)
  /\ (truthy_string (refreshToken expired_token) = true ->
      requests w' = requests w ++ [refresh_request "id" "secret" expired_token])
  /\ (truthy_string (refreshToken expired_token) = false ->
      requests w' = requests w).
Proof.
  apply (jwt_expired_error "id" "secret" expired_token
           (world (Responded 400 None)) 1000);
    [reflexivity | cbn; lia].
Defined.

(** C4 as stated fails on a token that already carries the error: the
    refresh token is held, the exchange succeeds, and the error stays. *)
Lemma jwt_expired_error_sticky :
  let w := world (Responded 200 (Some fresh_tokens)) in
  let token' := fst (jwt "id" "secret" failed_token None w) in
  ~ (error token' = Some RefreshAccessTokenError <->
       truthy_string (refreshToken failed_token) = false
       \/ exchange_failed
            (snd (network w (refresh_request "id" "secret" failed_token))) = true).
Proof.
  cbv zeta. intros [H _]. destruct (H eq_refl) as [H' | H']; discriminate H'.
Qed.

(** C8 as stated fails when the provider reports [expires_in = 0]: the
    expiry is an hour ahead, not [now + 0 * 1000]. *)
Lemma jwt_sign_in_zero_expiry :
  let account := {| account_access_token := Some "a";
                    account_expires_in := Some 0;
                    account_refresh_token := Some "r" |} in
  let w := world FetchRejected in
  accessTokenExpires (fst (jwt "id" "secret" expired_token (Some account) w))
  <> Some (Z.of_N (clock w) + 0 * 1000).
Proof. cbv zeta. vm_compute. discriminate. Qed.

End TokenSpec.

(** ** The playback controller *)

Section PlayerSpec.

Import Player.

(** C7. Selecting a track without a preview makes it the current track,
    sets [isPlaying] to false, and pauses the audio element and clears
    its source, whatever the player state was. *)
Theorem playTrack_without_preview track s :
  preview_url track = None ->
  let s' := playTrack track s in
  currentTrack s' = Some track
  /\ isPlaying s' = false
  /\ audioRef s' = (fun a => {| src := ""; paused := true |}) <$> audioRef s.
Proof.
  intros Hp. cbv zeta. unfold playTrack. rewrite Hp.
  destruct (audioRef s) as [a|]; cbn; repeat split; reflexivity.
Qed.

Lemma playTrack_without_preview_witness :
  let s' := playTrack silent_track
              {| currentTrack := None; isPlaying := true;
                 audioRef := Some {| src := "https://x/preview.mp3";
                                     paused := false |} |} in
  currentTrack s' = Some silent_track
  /\ isPlaying s' = false
  /\ audioRef s' = Some {| src := ""; paused := true |}.
Proof. exact (playTrack_without_preview silent_track _ eq_refl). Defined.

(** [playTrack] itself keeps the invariant: it reports playing only for
    a track with a preview. *)
Lemma playTrack_invariant track s :
  isPlaying (playTrack track s) = true -> hasPreview (playTrack track s) = true.
Proof.
  unfold playTrack, hasPreview.
  destruct (audioRef s) as [a|]; [|discriminate].
  destruct (truthy_string (preview_url track)) eqn:Hp; cbn;
    [intros _; exact Hp | discriminate].
Qed.

(** A rejected [play()] takes the playing state back. *)
Lemma playTrack_rejected track s :
  isPlaying (playRejected (playTrack track s)) = false
  /\ currentTrack (playRejected (playTrack track s)) = Some track.
Proof.
  unfold playRejected, playTrack.
  destruct (audioRef s), (truthy_string (preview_url track)); split; reflexivity.
Qed.

(** A click on the toggle beside the track info keeps the invariant too:
    that button is on the page only for a track with a preview. *)
Lemma sidebar_toggle_invariant s :
  sidebar_toggle_rendered s = true ->
  hasPreview (togglePlayPause s) = true.
Proof.
  unfold sidebar_toggle_rendered, togglePlayPause, hasPreview.
  destruct (audioRef s); intros H; exact H.
Qed.

(** [togglePlayPause] never looks at the preview: with an audio element
    mounted it flips [isPlaying] for any current track. *)
Lemma togglePlayPause_flips s a :
  audioRef s = Some a ->
  isPlaying (togglePlayPause s) = negb (isPlaying s)
  /\ currentTrack (togglePlayPause s) = currentTrack s.
Proof. intros Ha. unfold togglePlayPause. rewrite Ha. split; reflexivity. Qed.

(** C1 on the code: after a track without a preview is selected, the
    play button of the bottom bar is on the page, and a click on it
    leaves [isPlaying = true] with [hasPreview = false]. *)
Theorem togglePlayPause_plays_without_preview :
  let s := playTrack silent_track initial in
  bottom_bar_toggle_rendered s = true
  /\ sidebar_toggle_rendered s = false
  /\ isPlaying s = false
  /\ isPlaying (togglePlayPause s) = true
  /\ hasPreview (togglePlayPause s) = false.
Proof. cbv zeta. repeat split; reflexivity. Qed.

End PlayerSpec.

(** * Further properties *)

(** ** The scene around the bars *)

Section SceneSpec.
Import Scene.

Lemma bin_check_all : forallb (fun v => bin_check (Some v)) (seqZ 0 256) = true.
Proof. vm_compute. reflexivity. Qed.

Lemma bin_check_lookup (frequencyData : list Z) (k : nat) :
  Forall (fun sample => 0 <= sample <= 255) frequencyData ->
  bin_check (frequencyData !! k) = true.
Proof.
  intros Hrange. destruct (frequencyData !! k) as [v|] eqn:Hk; [|reflexivity].
  pose proof (Forall_lookup_1 _ _ _ _ Hrange Hk) as Hv. cbn beta in Hv.
  apply Is_true_true.
  assert (Hall : Forall (fun v => Is_true (bin_check (Some v))) (seqZ 0 256)).
  { apply forallb_True, Is_true_true, bin_check_all. }
  rewrite Forall_forall in Hall. apply Hall, elem_of_seqZ. lia.
Qed.

Theorem scene_params_bounds (frequencyData : list Z) :
  Forall (fun sample => 0 <= sample <= 255) frequencyData ->
  let p := render frequencyData in
  ((1 <=? cyan_light_intensity p)%float = true
   /\ (cyan_light_intensity p <=? 2)%float = true)
  /\ ((1 <=? magenta_light_intensity p)%float = true
      /\ (magenta_light_intensity p <=? 2)%float = true)
  /\ ((0.5 <=? sphere_radius p)%float = true
      /\ (sphere_radius p <=? 1.01)%float = true)
  /\ ((0 <=? sphere_emissiveIntensity p)%float = true
      /\ (sphere_emissiveIntensity p <=? 0.5)%float = true)
  /\ ((0 <=? ring_emissiveIntensity p)%float = true
      /\ (ring_emissiveIntensity p <=? 0.3)%float = true).
Proof.
  intros Hrange. cbv zeta. unfold render. cbn [cyan_light_intensity
    magenta_light_intensity sphere_radius sphere_emissiveIntensity
    ring_emissiveIntensity].
  pose proof (bin_check_lookup frequencyData 10 Hrange) as H10.
  pose proof (bin_check_lookup frequencyData 20 Hrange) as H20.
  pose proof (bin_check_lookup frequencyData 2 Hrange) as H2.
  pose proof (bin_check_lookup frequencyData 15 Hrange) as H15.
  unfold bin_check in *. cbv zeta in *.
  rewrite !andb_true_iff in H10, H20, H2, H15.
  intuition.
Qed.

Lemma scene_params_bounds_witness :
  let p := render [255; 0; 255] in
  ((1 <=? cyan_light_intensity p)%float = true
   /\ (cyan_light_intensity p <=? 2)%float = true)
  /\ ((1 <=? magenta_light_intensity p)%float = true
      /\ (magenta_light_intensity p <=? 2)%float = true)
  /\ ((0.5 <=? sphere_radius p)%float = true
      /\ (sphere_radius p <=? 1.01)%float = true)
  /\ ((0 <=? sphere_emissiveIntensity p)%float = true
      /\ (sphere_emissiveIntensity p <=? 0.5)%float = true)
  /\ ((0 <=? ring_emissiveIntensity p)%float = true
      /\ (ring_emissiveIntensity p <=? 0.3)%float = true).
Proof.
  apply (scene_params_bounds [255; 0; 255]).
  repeat constructor; lia.
Defined.

End SceneSpec.

(** ** The bar loop and the frame source *)

Section VisualizerMore.
Import Viz Bars.

Lemma all_in_range (check : Z -> bool) (n : Z) :
  forallb check (seqZ 0 n) = true ->
  forall v, 0 <= v < n -> check v = true.
Proof.
  intros Hall v Hv. apply Is_true_true.
  assert (H : Forall (fun v => Is_true (check v)) (seqZ 0 n)).
  { apply forallb_True, Is_true_true, Hall. }
  rewrite Forall_forall in H. apply H, elem_of_seqZ. lia.
Qed.

Lemma height_colour_check_all : forallb height_colour_check (seqZ 0 256) = true.
Proof. vm_compute. reflexivity. Qed.

Lemma quarter_check_all : forallb quarter_check (seqZ 0 32) = true.
Proof. vm_compute. reflexivity. Qed.

Lemma monotone_check_all :
  forallb (fun s1 => forallb (fun d => monotone_check s1 (s1 + d)) (seqZ 0 (256 - s1)))
    (seqZ 0 256) = true.
Proof. vm_compute. reflexivity. Qed.

(** The bar loop neither mounts nor unmounts a bar: the refs keep their
    number, and an index holds a mesh after the loop exactly when it did
    before. *)
Theorem bar_loop_keeps_mounts Math_sin Math_cos dataArray meshes :
  length (update_meshes Math_sin Math_cos dataArray meshes) = length meshes
  /\ forall i,
       mounted (update_meshes Math_sin Math_cos dataArray meshes) i
       = mounted meshes i.
Proof.
  split.
  - unfold update_meshes. apply length_imap.
  - intros i. unfold mounted. rewrite update_meshes_lookup.
    destruct (meshes !! i) as [[m|]|]; [|reflexivity..].
    destruct (dataArray !! i); reflexivity.
Qed.

(** Every bar that has a sample is placed at a height in [-1, 1], and a
    bar with a colour gets saturation in [0.5, 1] and lightness in
    [0.3, 0.7]; a bar without a colour stays without. *)
Theorem bar_height_colour_bounds Math_sin Math_cos dataArray meshes i mesh sample :
  dataArray !! i = Some sample ->
  0 <= sample <= 255 ->
  meshes !! i = Some (Some mesh) ->
  exists mesh',
    update_meshes Math_sin Math_cos dataArray meshes !! i = Some (Some mesh')
    /\ (-1 <=? y (position mesh'))%float = true
    /\ (y (position mesh') <=? 1)%float = true
    /\ match color mesh, color mesh' with
       | Some _, Some c =>
           (0.5 <=? saturation c)%float = true
           /\ (saturation c <=? 1)%float = true
           /\ (0.3 <=? lightness c)%float = true
           /\ (lightness c <=? 0.7)%float = true
       | None, None => True
       | _, _ => False
       end.
Proof.
  intros Hsample Hrange Hmesh.
  pose proof (all_in_range _ _ height_colour_check_all sample ltac:(lia)) as Hc.
  unfold height_colour_check in Hc. cbv zeta in Hc.
  rewrite !andb_true_iff in Hc.
  destruct Hc as [[[[[[[Hy1 Hy2] Hs1] Hs2] Hl1] Hl2] _] _].
  eexists. rewrite update_meshes_lookup, Hmesh, Hsample.
  split; [reflexivity|]. cbn [update_mesh position color x y z].
  split; [exact Hy1|]. split; [exact Hy2|].
  destruct (color mesh); cbn [saturation lightness]; [|exact I].
  repeat split; assumption.
Qed.

Lemma bar_height_colour_bounds_witness :
  exists mesh',
    update_meshes taylor_sin taylor_cos [0; 128; 255] [None; Some fresh_bar]
      !! 1%nat = Some (Some mesh')
    /\ (-1 <=? y (position mesh'))%float = true
    /\ (y (position mesh') <=? 1)%float = true
    /\ match color fresh_bar, color mesh' with
       | Some _, Some c =>
           (0.5 <=? saturation c)%float = true
           /\ (saturation c <=? 1)%float = true
           /\ (0.3 <=? lightness c)%float = true
           /\ (lightness c <=? 0.7)%float = true
       | None, None => True
       | _, _ => False
       end.
Proof.
  apply (bar_height_colour_bounds taylor_sin taylor_cos [0; 128; 255]
           [None; Some fresh_bar] 1%nat fresh_bar 128);
    [reflexivity | lia | reflexivity].
Defined.

(** A louder sample never gives a shorter, a thinner or a lower bar:
    [scale.y], [scale.x] and [position.y] are monotone in the sample. *)
Theorem bar_scale_monotone Math_sin Math_cos len index s1 s2 mesh1 mesh2 :
  0 <= s1 -> s1 <= s2 -> s2 <= 255 ->
  let m1 := update_mesh Math_sin Math_cos len index s1 mesh1 in
  let m2 := update_mesh Math_sin Math_cos len index s2 mesh2 in
  (y (scale m1) <=? y (scale m2))%float = true
  /\ (x (scale m1) <=? x (scale m2))%float = true
  /\ (y (position m1) <=? y (position m2))%float = true.
Proof.
  intros H0 H12 H255. cbv zeta. cbn [update_mesh scale position x y z].
  pose proof (all_in_range _ _ monotone_check_all s1 ltac:(lia)) as Hrow.
  cbn beta in Hrow.
  pose proof (all_in_range _ _ Hrow (s2 - s1) ltac:(lia)) as Hc.
  cbn beta in Hc. replace (s1 + (s2 - s1)) with s2 in Hc by lia.
  unfold monotone_check in Hc. cbv zeta in Hc.
  rewrite !andb_true_iff in Hc. destruct Hc as [[Hy Hx] Hp].
  repeat split; assumption.
Qed.

Lemma bar_scale_monotone_witness :
  let m1 := update_mesh taylor_sin taylor_cos 128 3 10 fresh_bar in
  let m2 := update_mesh taylor_sin taylor_cos 128 3 200 fresh_bar in
  (y (scale m1) <=? y (scale m2))%float = true
  /\ (x (scale m1) <=? x (scale m2))%float = true
  /\ (y (position m1) <=? y (position m2))%float = true.
Proof.
  apply (bar_scale_monotone taylor_sin taylor_cos 128 3 10 200
           fresh_bar fresh_bar); lia.
Defined.

(** With the 128-sample frames the callback works on, the 32 bars fill one
    quarter of the ring only: bar [index] sits at an angle in [0, pi/2), at
    a radius in [2, 3], and its hue is below a quarter turn. *)
Theorem bars_fill_a_quarter Math_sin Math_cos index sample mesh :
  (index < numBars)%nat ->
  0 <= sample <= 255 ->
  let mesh' := update_mesh Math_sin Math_cos 128 index sample mesh in
  exists angle radius,
    x (position mesh') = (Math_cos angle * radius)%float
    /\ z (position mesh') = (Math_sin angle * radius)%float
    /\ (0 <=? angle)%float = true
    /\ (angle <? Math_PI / 2)%float = true
    /\ (2 <=? radius)%float = true
    /\ (radius <=? 3)%float = true
    /\ match color mesh' with
       | Some c => (0 <=? hue c)%float = true /\ (hue c <? 0.25)%float = true
       | None => color mesh = None
       end.
Proof.
  intros Hi Hs. unfold numBars in Hi. cbv zeta.
  pose proof (all_in_range _ _ quarter_check_all (Z.of_nat index) ltac:(lia)) as Hq.
  pose proof (all_in_range _ _ height_colour_check_all sample ltac:(lia)) as Hc.
  unfold quarter_check in Hq. unfold height_colour_check in Hc.
  cbv zeta in Hq, Hc. rewrite !andb_true_iff in Hq, Hc.
  destruct Hq as [[[Ha1 Ha2] Hh1] Hh2].
  destruct Hc as [[_ Hr1] Hr2].
  eexists _, _. cbn [update_mesh position color x y z].
  split; [reflexivity|]. split; [reflexivity|].
  change (number_of_nat index) with (number_of_Z (Z.of_nat index)).
  change (number_of_nat 128) with (number_of_Z 128).
  repeat (split; [assumption|]).
  destruct (color mesh); cbn [hue]; [split; assumption | reflexivity].
Qed.

Lemma bars_fill_a_quarter_witness :
  let mesh' := update_mesh taylor_sin taylor_cos 128 31 255 fresh_bar in
  exists angle radius,
    x (position mesh') = (taylor_cos angle * radius)%float
    /\ z (position mesh') = (taylor_sin angle * radius)%float
    /\ (0 <=? angle)%float = true
    /\ (angle <? Math_PI / 2)%float = true
    /\ (2 <=? radius)%float = true
    /\ (radius <=? 3)%float = true
    /\ match color mesh' with
       | Some c => (0 <=? hue c)%float = true /\ (hue c <? 0.25)%float = true
       | None => color fresh_bar = None
       end.
Proof.
  apply (bars_fill_a_quarter taylor_sin taylor_cos 31 255 fresh_bar);
    [unfold numBars; lia | lia].
Defined.

Lemma next_frame_synthetic Math_sin inp st :
  synthetic_mode inp = true ->
  next_frame Math_sin inp st = synthetic_frame Math_sin (time st) (random inp).
Proof.
  unfold synthetic_mode, next_frame. destruct (analyser inp); [|reflexivity].
  destruct (demoMode inp), (truthy_string (audioSrc inp)); cbn;
    try reflexivity; discriminate.
Qed.

(** One frame in demo mode, with no assumption on what it draws or on the
    engine's sine: the frame kept in [frequencyData] has 128 samples in
    [0,255], and every mounted bar below 32 ends inside the scale bounds. *)
Theorem useFrame_synthetic_bounds Math_sin Math_cos inp st g :
  groupRef st = Some g ->
  synthetic_mode inp = true ->
  let st' := useFrame Math_sin Math_cos inp st in
  length (frequencyData st') = 128%nat
  /\ Forall (fun sample => 0 <= sample <= 255) (frequencyData st')
  /\ forall i mesh,
       (i < numBars)%nat ->
       meshRefs st !! i = Some (Some mesh) ->
       exists mesh',
         meshRefs st' !! i = Some (Some mesh')
         /\ (0.1 <=? y (scale mesh'))%float = true
         /\ (y (scale mesh') <=? 3.1)%float = true
         /\ (0.5 <=? x (scale mesh'))%float = true
         /\ (x (scale mesh') <=? 1)%float = true.
Proof.
  intros Hg Hmode. cbv zeta. unfold useFrame. rewrite Hg.
  rewrite (next_frame_synthetic Math_sin inp st Hmode).
  cbn [frequencyData meshRefs].
  split; [apply synthetic_frame_length|].
  split; [apply synthetic_frame_range|].
  intros i mesh Hi Hmesh. unfold numBars in Hi.
  rewrite update_meshes_lookup, Hmesh.
  rewrite synthetic_frame_lookup by lia.
  pose proof (synthetic_frame_range Math_sin (time st) (random inp)) as Hr.
  pose proof (Forall_lookup_1 _ _ _ _ Hr
                (synthetic_frame_lookup Math_sin (time st) (random inp) i
                   ltac:(lia))) as Hs.
  cbn beta in Hs. apply scale_check_sample in Hs.
  unfold scale_check in Hs. cbv zeta in Hs. rewrite !andb_true_iff in Hs.
  destruct Hs as [[[Hy1 Hy2] Hx1] Hx2].
  eexists. split; [reflexivity|]. cbn [update_mesh scale x y z].
  repeat split; assumption.
Qed.

Lemma useFrame_synthetic_bounds_witness :
  let st' := useFrame taylor_sin taylor_cos demo_input mounted_state in
  length (frequencyData st') = 128%nat
  /\ Forall (fun sample => 0 <= sample <= 255) (frequencyData st')
  /\ forall i mesh,
       (i < numBars)%nat ->
       meshRefs mounted_state !! i = Some (Some mesh) ->
       exists mesh',
         meshRefs st' !! i = Some (Some mesh')
         /\ (0.1 <=? y (scale mesh'))%float = true
         /\ (y (scale mesh') <=? 3.1)%float = true
         /\ (0.5 <=? x (scale mesh'))%float = true
         /\ (x (scale mesh') <=? 1)%float = true.
Proof.
  exact (useFrame_synthetic_bounds taylor_sin taylor_cos demo_input
           mounted_state {| rotation_y := 0 |} eq_refl eq_refl).
Defined.

End VisualizerMore.

(** ** The token lifecycle, check after check *)

Section TokenMore.
Import Auth Session.

Section RouteMore.
Variables client_id client_secret : string.

Ltac by_reply w :=
  destruct (network w _) as [elapsed [|status [r|]]].

(** A check made before a non-zero expiry hands the token back. *)
Lemma jwt_before_expiry token w expires :
  accessTokenExpires token = Some expires ->
  Z.of_N (clock w) < expires ->
  jwt client_id client_secret token None w = (token, w).
Proof.
  intros He Hlt. unfold jwt, bind, Date_now. rewrite He.
  replace (expires =? 0) with false by (symmetry; apply Z.eqb_neq; lia).
  replace (Z.of_N (clock w) <? expires) with true
    by (symmetry; apply Z.ltb_lt, Hlt).
  reflexivity.
Qed.

(** What the callback does to the world and to the keys it does not own:
    the other keys of the token are kept, the network is untouched, the
    clock does not go back, and at most one request is sent, none at all
    on sign-in. *)
Theorem jwt_effects token account w :
  let token' := fst (jwt client_id client_secret token account w) in
  let w' := snd (jwt client_id client_secret token account w) in
  claims token' = claims token
  /\ network w' = network w
  /\ (clock w <= clock w')%N
  /\ (requests w' = requests w
      \/ (account = None
          /\ requests w'
             = requests w ++ [refresh_request client_id client_secret token])).
Proof.
  cbv zeta. destruct account as [account|].
  - cbn. repeat split; [lia | left; reflexivity].
  - unfold jwt, bind, Date_now.
    destruct (match accessTokenExpires token with
              | Some expires => _ | None => false end).
    { cbn. repeat split; [lia | left; reflexivity]. }
    destruct (truthy_string (refreshToken token)); cbn [negb].
    + unfold refreshAccessToken, bind, fetch, Date_now.
      by_reply w; cbn; try (repeat split; [lia | right; split; reflexivity]).
      destruct (ok status); cbn; repeat split; try lia; right; split; reflexivity.
    + cbn. repeat split; [lia | left; reflexivity].
Qed.

(** Sign-in, then a check: a token issued at sign-in comes back unchanged,
    with nothing sent, from every check made before
    [issued + seconds * 1000], where [seconds] is the provider's
    [expires_in], or 3600 when that is absent or 0. *)
Theorem sign_in_then_check token account w w2 :
  let seconds := match account_expires_in account with
                 | Some n => if n =? 0 then 3600 else n
                 | None => 3600
                 end in
  let issued := fst (jwt client_id client_secret token (Some account) w) in
  Z.of_N (clock w2) < Z.of_N (clock w) + seconds * 1000 ->
  jwt client_id client_secret issued None w2 = (issued, w2).
Proof.
  cbv zeta. intros Hlt. eapply jwt_before_expiry; [|exact Hlt]. reflexivity.
Qed.

(** Refresh, then a check: after a 2xx reply the renewed token comes back
    unchanged, with nothing sent, from every check made before the new
    expiry. *)
Theorem refresh_then_check token w w2 elapsed status r :
  network w (refresh_request client_id client_secret token)
  = (elapsed, Responded status (Some r)) ->
  ok status = true ->
  let renewed := fst (refreshAccessToken client_id client_secret token w) in
  Z.of_N (clock w2) < Z.of_N (clock w + elapsed) + expires_in r * 1000 ->
  jwt client_id client_secret renewed None w2 = (renewed, w2).
Proof.
  intros Hnet Hok. cbv zeta. intros Hlt.
  eapply jwt_before_expiry; [|exact Hlt].
  unfold refreshAccessToken, bind, fetch. rewrite Hnet. cbn.
  rewrite Hok. reflexivity.
Qed.

(** A failed refresh is tried again by the next check: the token that
    comes back keeps its expiry and its refresh token, so the next check,
    in whatever world it runs once the expiry has passed, sends the same
    request again. *)
Theorem failed_refresh_retried token w expires w2 :
  accessTokenExpires token = Some expires ->
  expires <= Z.of_N (clock w) ->
  truthy_string (refreshToken token) = true ->
  exchange_failed
    (snd (network w (refresh_request client_id client_secret token))) = true ->
  expires <= Z.of_N (clock w2) ->
  let failed := fst (jwt client_id client_secret token None w) in
  error failed = Some RefreshAccessTokenError
  /\ requests (snd (jwt client_id client_secret failed None w2))
     = requests w2 ++ [refresh_request client_id client_secret token].
Proof.
  intros He Hle Hheld Hfail Hle2. cbv zeta.
  assert (Hfirst : fst (jwt client_id client_secret token None w)
                   = set_error (Some RefreshAccessTokenError) token).
  { rewrite (jwt_expired client_id client_secret token w expires He Hle), Hheld.
    cbn [negb]. rewrite refreshAccessToken_result.
    by_reply w; cbn in Hfail |- *; try reflexivity.
    apply negb_true_iff in Hfail. rewrite Hfail. reflexivity. }
  rewrite Hfirst. split; [reflexivity|].
  rewrite (jwt_expired client_id client_secret
             (set_error (Some RefreshAccessTokenError) token) w2 expires He Hle2).
  cbn [set_error refreshToken]. rewrite Hheld. cbn [negb].
  rewrite refreshAccessToken_requests. reflexivity.
Qed.

(** Once a token carries the error, no validity check removes it, whatever
    the network answers; only a sign-in does. *)
Lemma error_survives_checks token w :
  error token = Some RefreshAccessTokenError ->
  error (fst (jwt client_id client_secret token None w))
  = Some RefreshAccessTokenError.
Proof.
  intros Herr. unfold jwt, bind, Date_now.
  destruct (match accessTokenExpires token with
            | Some expires => _ | None => false end); [exact Herr|].
  destruct (truthy_string (refreshToken token)); cbn [negb]; [|reflexivity].
  rewrite refreshAccessToken_result.
  by_reply w; try reflexivity. destruct (ok status); [exact Herr | reflexivity].
Qed.

(** Token rotation: once a refresh has succeeded, the request a later
    refresh sends carries the refresh token the provider returned, or the
    old one when the reply had none. *)
Theorem refresh_rotates_token token w elapsed status r :
  network w (refresh_request client_id client_secret token)
  = (elapsed, Responded status (Some r)) ->
  ok status = true ->
  let renewed := fst (refreshAccessToken client_id client_secret token w) in
  forall w2,
    truthy_string (refreshToken renewed) = true ->
    Z.of_N (clock w + elapsed) + expires_in r * 1000 <= Z.of_N (clock w2) ->
    requests (snd (jwt client_id client_secret renewed None w2))
    = requests w2
      ++ [{| url := "https://accounts.spotify.com/api/token";
             method := "POST";
             content_type := "application/x-www-form-urlencoded";
             basic_credentials := (client_id, client_secret);
             body := [("grant_type", Some "refresh_token");
                      ("refresh_token",
                       match refresh_token r with
                       | Some t => Some t
                       | None => refreshToken token
                       end)] |}].
Proof.
  intros Hnet Hok. cbv zeta.
  assert (Hren : fst (refreshAccessToken client_id client_secret token w)
                 = {| accessToken := Some (access_token r);
                      accessTokenExpires :=
                        Some (Z.of_N (clock w + elapsed) + expires_in r * 1000);
                      refreshToken := match refresh_token r with
                                      | Some t => Some t
                                      | None => refreshToken token
                                      end;
                      error := error token;
                      claims := claims token |}).
  { rewrite refreshAccessToken_result, Hnet, Hok. reflexivity. }
  rewrite Hren. intros w2 Hheld Hle.
  match goal with
  | |- context [jwt _ _ ?t None w2] =>
      rewrite (jwt_expired client_id client_secret t w2 _ eq_refl Hle)
  end.
  rewrite Hheld. cbn [negb]. rewrite refreshAccessToken_requests. reflexivity.
Qed.

(** From a failed check to the page: when a check of an expired token
    finds no refresh token, or the exchange fails, the session built from
    the result makes the page show the session-expired view, while it
    still carries the old access token. *)
Theorem failed_check_shows_expired token w expires s :
  accessTokenExpires token = Some expires ->
  expires <= Z.of_N (clock w) ->
  truthy_string (refreshToken token) = false
  \/ exchange_failed
       (snd (network w (refresh_request client_id client_secret token))) = true ->
  let s' := session s (fst (jwt client_id client_secret token None w)) in
  view (Some s') = SessionExpired
  /\ session_accessToken s' = accessToken token
  /\ user s' = user s.
Proof.
  intros He Hle Hwhy. cbv zeta.
  assert (Ht : fst (jwt client_id client_secret token None w)
               = set_error (Some RefreshAccessTokenError) token).
  { rewrite (jwt_expired client_id client_secret token w expires He Hle).
    destruct (truthy_string (refreshToken token)) eqn:Hheld; cbn [negb];
      [|reflexivity].
    destruct Hwhy as [Hw | Hfail]; [discriminate|].
    rewrite refreshAccessToken_result.
    by_reply w; cbn in Hfail |- *; try reflexivity.
    apply negb_true_iff in Hfail. rewrite Hfail. reflexivity. }
  rewrite Ht. repeat split; reflexivity.
Qed.

(** The lock-out is permanent without a new sign-in: for a token that
    carries the error, every later check, even one whose refresh succeeds,
    leaves the page on the session-expired view. *)
Theorem failed_session_stays_expired token w s :
  error token = Some RefreshAccessTokenError ->
  view (Some (session s (fst (jwt client_id client_secret token None w))))
  = SessionExpired.
Proof.
  intros Herr. unfold view, session. cbn [session_error].
  rewrite (error_survives_checks token w Herr). reflexivity.
Qed.

(** A token inside its lifetime and without an error opens the dashboard
    with its access token, for a session that came in without an error. *)
Theorem valid_token_shows_dashboard token w expires s :
  accessTokenExpires token = Some expires ->
  Z.of_N (clock w) < expires ->
  error token = None ->
  session_error s = None ->
  let s' := session s (fst (jwt client_id client_secret token None w)) in
  view (Some s') = Dashboard
  /\ token_of (Some s') = accessToken token.
Proof.
  intros He Hlt Herr Hs. cbv zeta.
  rewrite (jwt_before_expiry token w expires He Hlt). cbn [fst].
  unfold view, session, token_of. cbn. rewrite Herr. cbn. rewrite Hs.
  split; reflexivity.
Qed.

End RouteMore.

Lemma sign_in_then_check_witness :
  let account := {| account_access_token := Some "access-1";
                    account_expires_in := None;
                    account_refresh_token := Some "refresh-1" |} in
  let issued := fst (jwt "id" "secret" expired_token (Some account)
                       (world FetchRejected)) in
  let w2 := {| clock := 5000; network := fun _ => (0%N, FetchRejected);
               requests := [] |} in
  jwt "id" "secret" issued None w2 = (issued, w2).
Proof.
  apply (sign_in_then_check "id" "secret" expired_token
           {| account_access_token := Some "access-1";
              account_expires_in := None;
              account_refresh_token := Some "refresh-1" |}
           (world FetchRejected)).
  cbn. lia.
Defined.

Lemma refresh_then_check_witness :
  let renewed := fst (refreshAccessToken "id" "secret" expired_token
                        (world (Responded 200 (Some fresh_tokens)))) in
  let w2 := {| clock := 5000; network := fun _ => (0%N, FetchRejected);
               requests := [] |} in
  jwt "id" "secret" renewed None w2 = (renewed, w2).
Proof.
  apply (refresh_then_check "id" "secret" expired_token
           (world (Responded 200 (Some fresh_tokens))) _ 150%N 200 fresh_tokens);
    [reflexivity | reflexivity | cbn; lia].
Defined.

Lemma failed_refresh_retried_witness :
  let failed := fst (jwt "id" "secret" expired_token None
                       (world (Responded 503 None))) in
  error failed = Some RefreshAccessTokenError
  /\ requests (snd (jwt "id" "secret" failed None
                      (world (Responded 200 (Some fresh_tokens)))))
     = [] ++ [refresh_request "id" "secret" expired_token].
Proof.
  apply (failed_refresh_retried "id" "secret" expired_token
           (world (Responded 503 None)) 1000
           (world (Responded 200 (Some fresh_tokens))));
    [reflexivity | cbn; lia | reflexivity | reflexivity | cbn; lia].
Defined.

Lemma refresh_rotates_token_witness :
  let reply := {| access_token := "new-access"; expires_in := 1;
                  refresh_token := Some "refresh-2" |} in
  let renewed := fst (refreshAccessToken "id" "secret" expired_token
                        (world (Responded 200 (Some reply)))) in
  let w2 := {| clock := 9000; network := fun _ => (0%N, FetchRejected);
               requests := [] |} in
  requests (snd (jwt "id" "secret" renewed None w2))
  = [] ++ [{| url := "https://accounts.spotify.com/api/token";
              method := "POST";
              content_type := "application/x-www-form-urlencoded";
              basic_credentials := ("id", "secret");
              body := [("grant_type", Some "refresh_token");
                       ("refresh_token", Some "refresh-2")] |}].
Proof.
  apply (refresh_rotates_token "id" "secret" expired_token
           (world (Responded 200
                     (Some {| access_token := "new-access"; expires_in := 1;
                              refresh_token := Some "refresh-2" |})))
           150%N 200 _ eq_refl eq_refl
           {| clock := 9000; network := fun _ => (0%N, FetchRejected);
              requests := [] |});
    [reflexivity | cbn; lia].
Defined.

Lemma failed_check_shows_expired_witness :
  let s' := session blank_session
              (fst (jwt "id" "secret" expired_token None
                      (world FetchRejected))) in
  view (Some s') = SessionExpired
  /\ session_accessToken s' = Some "old-access"
  /\ user s' = user blank_session.
Proof.
  apply (failed_check_shows_expired "id" "secret" expired_token
           (world FetchRejected) 1000 blank_session);
    [reflexivity | cbn; lia | right; reflexivity].
Defined.

Lemma failed_session_stays_expired_witness :
  view (Some (session blank_session
                (fst (jwt "id" "secret" failed_token None
                        (world (Responded 200 (Some fresh_tokens)))))))
  = SessionExpired.
Proof.
  apply (failed_session_stays_expired "id" "secret" failed_token). reflexivity.
Defined.

Lemma valid_token_shows_dashboard_witness :
  let w := {| clock := 500; network := fun _ => (0%N, FetchRejected);
              requests := [] |} in
  let s' := session blank_session (fst (jwt "id" "secret" expired_token None w)) in
  view (Some s') = Dashboard
  /\ token_of (Some s') = Some "old-access".
Proof.
  apply (valid_token_shows_dashboard "id" "secret" expired_token _ 1000
           blank_session);
    [reflexivity | cbn; lia | reflexivity | reflexivity].
Defined.

End TokenMore.

(** ** The playlist proxy *)

Section ProxySpec.
Import Session Proxy.

(** The proxy contacts the upstream API only for a session with an access
    token, and then once, with that token as bearer; without one it
    answers 401 and sends nothing. *)
Theorem proxy_requests {D} (session : option Session) id
  (upstream : Request -> Upstream D) :
  match token_of session with
  | Some token =>
      if String.eqb token "" then
        GET session id upstream
        = ({| status := 401; body := ErrorBody "Unauthorized" |}, [])
      else snd (GET session id upstream) = [tracks_request id token]
           /\ status (fst (GET session id upstream)) <> 401
  | None =>
      GET session id upstream
      = ({| status := 401; body := ErrorBody "Unauthorized" |}, [])
  end.
Proof.
  unfold GET. destruct (token_of session) as [token|]; cbn; [|reflexivity].
  destruct (String.eqb token ""); cbn; [reflexivity|].
  split; [reflexivity|].
  destruct (upstream _) as [|st [d|]]; cbn; try discriminate.
  destruct (Auth.ok st); discriminate.
Qed.


End ProxySpec.

(** ** Search results *)

Section SearchSpec.
Import Player Session Search.

(** Inserting a track with a preview puts it in front. *)
Lemma insert_preview (t : Track) (l : list Track) :
  has_preview t = true -> insert_sorted by_preview t l = t :: l.
Proof.
  intros Ht. destruct l as [|b l]; [reflexivity|]. cbn.
  unfold by_preview. rewrite Ht. cbn. destruct (has_preview b); reflexivity.
Qed.

(** Inserting a track without one puts it behind the tracks with a
    preview, in front of the others. *)
Lemma insert_no_preview (t : Track) (l1 l2 : list Track) :
  has_preview t = false ->
  Forall (fun a => has_preview a = true) l1 ->
  Forall (fun a => has_preview a = false) l2 ->
  insert_sorted by_preview t (l1 ++ l2) = l1 ++ t :: l2.
Proof.
  intros Ht Hl1 Hl2. induction Hl1 as [|a l1 Ha _ IH]; cbn.
  - destruct Hl2 as [|b l2 Hb _]; [reflexivity|]. cbn.
    unfold by_preview. rewrite Ht, Hb. reflexivity.
  - unfold by_preview at 1. rewrite Ht, Ha. cbn. rewrite IH. reflexivity.
Qed.

Lemma sort_by_preview (l : list Track) :
  Array_sort by_preview l
  = filter (fun t => has_preview t = true) l
    ++ filter (fun t => has_preview t = false) l.
Proof.
  induction l as [|t l IH]; [reflexivity|].
  cbn [Array_sort foldr]. fold (Array_sort by_preview l). rewrite IH.
  destruct (has_preview t) eqn:Ht.
  - rewrite insert_preview by exact Ht.
    rewrite filter_cons_True by exact Ht.
    rewrite filter_cons_False by (rewrite Ht; discriminate). reflexivity.
  - rewrite insert_no_preview;
      [| exact Ht
       | apply Forall_forall; intros a Ha; apply list_elem_of_filter in Ha; tauto
       | apply Forall_forall; intros a Ha; apply list_elem_of_filter in Ha; tauto].
    rewrite filter_cons_False by (rewrite Ht; discriminate).
    rewrite filter_cons_True by exact Ht. reflexivity.
Qed.

(** The track results are the valid tracks of the reply, those with a
    preview first and the others after, each group in the order of the
    reply. *)
Theorem results_previews_first (data : SearchData) :
  let valid := omap valid_track (default [] (tracks_items data)) in
  tracks (results_of data)
  = filter (fun t => has_preview t = true) valid
    ++ filter (fun t => has_preview t = false) valid.
Proof. cbv zeta. unfold results_of. cbn [tracks]. apply sort_by_preview. Qed.

(** No result is invented or left nameless: every track of the results is
    an entry of the reply with a non-empty id and name, and every such
    entry is among the results. *)
Theorem results_tracks_valid (data : SearchData) (t : Track) :
  t ∈ tracks (results_of data)
  <-> Some t ∈ default [] (tracks_items data) /\ id t <> "" /\ name t <> "".
Proof.
  unfold results_of. cbn [tracks]. rewrite sort_by_preview.
  rewrite elem_of_app, !list_elem_of_filter, list_elem_of_omap.
  assert (Hv : forall o, valid_track o = Some t
                         <-> o = Some t /\ id t <> "" /\ name t <> "").
  { intros [a|]; cbn; [|split; [discriminate | intros [? _]; discriminate]].
    destruct (String.eqb_spec (id a) ""), (String.eqb_spec (name a) ""); cbn;
      split; try discriminate;
      try (intros [[= ->] [? ?]]; congruence);
      intros [= ->]; auto. }
  split.
  - intros [[_ (o & Ho & Hvo)] | [_ (o & Ho & Hvo)]];
      apply Hv in Hvo as [-> ?]; auto.
  - intros [Hin Hok]. destruct (has_preview t) eqn:Ht; [left | right];
      (split; [reflexivity|]); exists (Some t); split; auto; apply Hv; auto.
Qed.




End SearchSpec.

(** ** The search and playlist handlers *)

Section PageSpec.
Import Player Session Search.

Section HandlersSpec.
Variables (trim encodeURIComponent : string -> string).

(** A search sends a request only for a query that is not blank and a
    session with an access token, and then exactly one, to the search
    endpoint, with that token as bearer. *)
Theorem search_requests session query network p :
  let sent := snd (searchSpotify trim encodeURIComponent session query network p) in
  (sent = []
   /\ (trim query = ""
       \/ ~ exists token, token_of session = Some token /\ token <> ""))
  \/ (exists token,
        token_of session = Some token /\ token <> "" /\ trim query <> ""
        /\ sent = [{| Proxy.url := "https://api.spotify.com/v1/search?q="
                           ++ encodeURIComponent query
                           ++ "&type=track,playlist&limit=20";
                      Proxy.authorization := "Bearer " ++ token |}]).
Proof.
  cbv zeta. unfold searchSpotify, search_blocked. cbn [truthy_string].
  destruct (String.eqb_spec (trim query) "") as [Hq | Hq]; cbn.
  { left. split; [reflexivity | left; exact Hq]. }
  destruct (token_of session) as [token|] eqn:Ht; cbn.
  - destruct (String.eqb_spec token "") as [He | He]; cbn.
    + left. split; [reflexivity|]. right. intros (t & [= <-] & Hne). congruence.
    + right. exists token. repeat split; assumption.
  - left. split; [reflexivity|]. right. intros (t & [=] & _).
Qed.

(** Once a search that was sent has settled, the loading flag is down and
    the playlist part of the page is as before; the results are replaced
    only by those of a 2xx reply whose body parsed, and the page alerts
    and redirects to ["/"] only on a 401. *)
Theorem search_settles session query network p :
  search_blocked trim session query = false ->
  let req := search_request encodeURIComponent query (default "" (token_of session)) in
  let p' := fst (searchSpotify trim encodeURIComponent session query network p) in
  loading p' = false
  /\ selectedPlaylist p' = selectedPlaylist p
  /\ playlistTracks p' = playlistTracks p
  /\ loadingPlaylist p' = loadingPlaylist p
  /\ (searchResults p' = searchResults p
      \/ exists st data,
           network req = Proxy.Responded st (Some data)
           /\ Auth.ok st = true /\ searchResults p' = results_of data)
  /\ ((href p' = href p /\ alerts p' = alerts p)
      \/ ((exists json, network req = Proxy.Responded 401 json)
          /\ href p' = Some "/"
          /\ searchResults p' = searchResults p)).
Proof.
  intros Hgo. cbv zeta. unfold searchSpotify. rewrite Hgo. cbn [fst].
  unfold search_settle.
  destruct (network _) as [|st json] eqn:Hnet; cbn.
  { repeat split; auto. }
  destruct (Auth.ok st) eqn:Hok.
  - destruct json as [data|]; cbn; repeat split; auto.
    right. exists st, data. auto.
  - destruct (Z.eqb_spec st 401) as [-> | Hne]; cbn; repeat split; auto.
    right. repeat split; eauto.
Qed.

End HandlersSpec.

Lemma previewable_all l ts :
  previewable l = Some ts -> Forall (fun t => has_preview t = true) ts.
Proof.
  revert ts. induction l as [|[item|] l IH]; cbn; intros ts H.
  - injection H as <-. constructor.
  - destruct (previewable l) as [ts'|]; [|discriminate].
    specialize (IH ts' eq_refl).
    destruct (item_track item) as [t|]; [|injection H as <-; exact IH].
    destruct (has_preview t) eqn:Ht; injection H as <-; [|exact IH].
    constructor; assumption.
  - discriminate.
Qed.

Lemma previewable_null l : None ∈ l -> previewable l = None.
Proof.
  induction l as [|[item|] l IH]; intros Hin.
  - apply elem_of_nil in Hin. contradiction.
  - apply elem_of_cons in Hin as [Hin | Hin]; [discriminate|].
    cbn. rewrite (IH Hin). reflexivity.
  - reflexivity.
Qed.

(** What [previewable] keeps: the tracks of the items that have one with a
    preview, in order. *)
Lemma previewable_tracks l ts t :
  previewable l = Some ts ->
  t ∈ ts <-> Some {| item_track := Some t |} ∈ l /\ has_preview t = true.
Proof.
  revert ts. induction l as [|[item|] l IH]; cbn; intros ts H.
  - injection H as <-. split; [intros Hin | intros [Hin _]];
      apply elem_of_nil in Hin; contradiction.
  - destruct (previewable l) as [ts'|]; [|discriminate].
    specialize (IH ts' eq_refl). destruct item as [[a|]]; cbn in H.
    + destruct (has_preview a) eqn:Ha; injection H as <-.
      * rewrite !elem_of_cons, IH. split.
        -- intros [-> | [? ?]]; auto.
        -- intros [[[= ->] | ?] ?]; auto.
      * rewrite elem_of_cons, IH. split.
        -- intros [? ?]; auto.
        -- intros [[[= ->] | ?] ?]; [congruence | auto].
    + injection H as <-. rewrite elem_of_cons, IH. split.
      * intros [? ?]; auto.
      * intros [[[=] | ?] ?]; auto.
  - discriminate.
Qed.

(** Selecting a playlist keeps the playlist tracks playable: if every
    track held had a preview, every track held afterwards has one,
    whatever the reply; the playlist is selected and its loading flag is
    down, and the search part of the page is untouched. *)
Theorem selectPlaylist_keeps_previews pl network p :
  Forall (fun t => has_preview t = true) (playlistTracks p) ->
  let p' := selectPlaylist pl network p in
  Forall (fun t => has_preview t = true) (playlistTracks p')
  /\ selectedPlaylist p' = Some pl
  /\ loadingPlaylist p' = false
  /\ searchResults p' = searchResults p
  /\ loading p' = loading p.
Proof.
  intros Hold. cbv zeta. unfold selectPlaylist. cbn.
  repeat split.
  destruct (network _) as [|st [data|]]; try exact Hold.
  destruct (Auth.ok st); [|exact Hold].
  unfold playlist_tracks_of. destruct (items data) as [l|]; [|exact Hold].
  destruct (previewable l) as [ts|] eqn:Hts; [|exact Hold].
  exact (previewable_all l ts Hts).
Qed.

(** A reply is taken whole or not at all: with a [null] among its items,
    or without [items], even a 2xx reply leaves the tracks of the playlist
    selected before in place, under the newly selected playlist. *)
Theorem broken_reply_keeps_old_tracks pl network p st data :
  network (playlist_request pl) = Proxy.Responded st (Some data) ->
  match items data with
  | Some l => None ∈ l
  | None => True
  end ->
  let p' := selectPlaylist pl network p in
  playlistTracks p' = playlistTracks p /\ selectedPlaylist p' = Some pl.
Proof.
  intros Hnet Hbad. cbv zeta. unfold selectPlaylist. rewrite Hnet. cbn.
  split; [|reflexivity]. destruct (Auth.ok st); [|reflexivity].
  unfold playlist_tracks_of. destruct (items data) as [l|]; [|reflexivity].
  rewrite (previewable_null l Hbad). reflexivity.
Qed.

(** The page and the proxy together: the playlist tracks change only when
    the server session holds an access token and the upstream API answers
    2xx with a body the page can read, and the new tracks are then the
    tracks with a preview of that body. *)
Theorem playlist_through_proxy pl session upstream p :
  let network := fun _ : string =>
    reply_of_proxy (fst (Proxy.GET session (playlist_id pl) upstream)) in
  let p' := selectPlaylist pl network p in
  playlistTracks p' = playlistTracks p
  \/ exists token st data ts,
       token_of session = Some token /\ token <> ""
       /\ upstream (Proxy.tracks_request (playlist_id pl) token)
          = Proxy.Responded st (Some data)
       /\ Auth.ok st = true
       /\ playlist_tracks_of data = Some ts
       /\ playlistTracks p' = ts.
Proof.
  cbv zeta. unfold selectPlaylist, reply_of_proxy, Proxy.GET.
  cbn [playlistTracks set_playlist].
  destruct (token_of session) as [token|] eqn:Ht; cbn; [|left; reflexivity].
  destruct (String.eqb_spec token "") as [He | He]; cbn; [left; reflexivity|].
  destruct (upstream _) as [|st [data|]] eqn:Hup; cbn; try (left; reflexivity).
  destruct (Auth.ok st) eqn:Hok; cbn; [|left; reflexivity].
  destruct (playlist_tracks_of data) as [ts|] eqn:Hts; [|left; reflexivity].
  right. exists token, st, data, ts. repeat split; assumption.
Qed.

(** From playlist to playback: a track taken from a playlist loaded into an
    empty page starts playing when selected, with its preview as the audio
    source, and the visualizer leaves demo mode. *)
Theorem playlist_track_plays pl network t s a :
  t ∈ playlistTracks (selectPlaylist pl network initial_page) ->
  audioRef s = Some a ->
  let s' := playTrack t s in
  currentTrack s' = Some t
  /\ isPlaying s' = true
  /\ hasPreview s' = true
  /\ (src <$> audioRef s') = preview_url t
  /\ demoMode_prop s' = Some false.
Proof.
  intros Hin Ha. cbv zeta.
  destruct (selectPlaylist_keeps_previews pl network initial_page) as [Hall _];
    [constructor|].
  rewrite Forall_forall in Hall. specialize (Hall t Hin).
  unfold has_preview in Hall.
  unfold playTrack, hasPreview, demoMode_prop, has_preview. rewrite Ha, Hall. cbn.
  rewrite Hall. repeat split.
  destruct (preview_url t); [reflexivity | discriminate].
Qed.

(** The visualizer never reads the analyser for a track without a preview,
    or while playback is off: the page then passes [demoMode = true], and
    the frame is the synthetic one. This holds in the state the bottom-bar
    toggle reaches, [isPlaying] without a preview. *)
Theorem no_audio_means_demo Math_sin s inp st :
  demoMode_prop s = Some (Viz.demoMode inp) ->
  hasPreview s = false \/ isPlaying s = false ->
  Viz.next_frame Math_sin inp st
  = Viz.synthetic_frame Math_sin (Viz.time st) (Viz.random inp).
Proof.
  unfold demoMode_prop, hasPreview, has_preview.
  destruct (currentTrack s) as [t|]; [|discriminate].
  intros [= Hdemo] Hwhy. unfold Viz.next_frame.
  destruct (Viz.analyser inp); [|reflexivity].
  rewrite <- Hdemo.
  destruct Hwhy as [-> | ->]; cbn; [reflexivity|].
  rewrite orb_true_r. reflexivity.
Qed.

(** With a 2xx reply whose items are all objects, the playlist tracks are
    exactly the tracks of the items that have one with a preview. *)
Theorem playlist_tracks_exact pl network p st data l t :
  network (playlist_request pl) = Proxy.Responded st (Some data) ->
  Auth.ok st = true ->
  items data = Some l ->
  None ∉ l ->
  t ∈ playlistTracks (selectPlaylist pl network p)
  <-> Some {| item_track := Some t |} ∈ l /\ has_preview t = true.
Proof.
  intros Hnet Hok Hitems Hnull. unfold selectPlaylist. rewrite Hnet, Hok.
  unfold playlist_tracks_of. rewrite Hitems. cbn [playlistTracks set_playlist].
  destruct (previewable l) as [ts|] eqn:Hts.
  - apply previewable_tracks. exact Hts.
  - exfalso. clear - Hnull Hts. induction l as [|[item|] l IH]; cbn in Hts.
    + discriminate.
    + destruct (previewable l) as [ts|].
      * destruct (item_track item) as [a|]; [destruct (has_preview a)|];
          discriminate.
      * apply IH; [|reflexivity]. intros Hin. apply Hnull.
        apply list_elem_of_further, Hin.
    + apply Hnull, list_elem_of_here.
Qed.

Lemma playlist_tracks_exact_witness :
  preview_track
    ∈ playlistTracks (selectPlaylist sample_playlist sample_reply initial_page)
  <-> Some {| item_track := Some preview_track |}
        ∈ [Some {| item_track := Some silent_track |};
           Some {| item_track := None |};
           Some {| item_track := Some preview_track |}]
      /\ has_preview preview_track = true.
Proof.
  apply (playlist_tracks_exact sample_playlist sample_reply initial_page 200
           sample_playlist_data);
    [reflexivity | reflexivity | reflexivity |].
  intros Hin. repeat (apply elem_of_cons in Hin as [Hin | Hin]; [discriminate|]).
  apply elem_of_nil in Hin. exact Hin.
Defined.

Lemma search_settles_witness :
  let network := fun _ : Proxy.Request =>
    Proxy.Responded 200 (Some sample_search) in
  let req := search_request (fun q => q) "daft punk"
               (default "" (token_of (Some signed_in))) in
  let p' := fst (searchSpotify (fun q => q) (fun q => q) (Some signed_in)
                   "daft punk" network initial_page) in
  loading p' = false
  /\ selectedPlaylist p' = selectedPlaylist initial_page
  /\ playlistTracks p' = playlistTracks initial_page
  /\ loadingPlaylist p' = loadingPlaylist initial_page
  /\ (searchResults p' = searchResults initial_page
      \/ exists st data,
           network req = Proxy.Responded st (Some data)
           /\ Auth.ok st = true /\ searchResults p' = results_of data)
  /\ ((href p' = href initial_page /\ alerts p' = alerts initial_page)
      \/ ((exists json, network req = Proxy.Responded 401 json)
          /\ href p' = Some "/"
          /\ searchResults p' = searchResults initial_page)).
Proof.
  apply (search_settles (fun q => q) (fun q => q) (Some signed_in) "daft punk"
           (fun _ => Proxy.Responded 200 (Some sample_search)) initial_page).
  reflexivity.
Defined.

Lemma selectPlaylist_keeps_previews_witness :
  let p' := selectPlaylist sample_playlist sample_reply initial_page in
  Forall (fun t => has_preview t = true) (playlistTracks p')
  /\ selectedPlaylist p' = Some sample_playlist
  /\ loadingPlaylist p' = false
  /\ searchResults p' = searchResults initial_page
  /\ loading p' = loading initial_page.
Proof.
  apply (selectPlaylist_keeps_previews sample_playlist sample_reply initial_page).
  constructor.
Defined.

Lemma broken_reply_keeps_old_tracks_witness :
  let network := fun _ : string =>
    Proxy.Responded 200 (Some {| items := Some [None] |}) in
  let p' := selectPlaylist sample_playlist network initial_page in
  playlistTracks p' = playlistTracks initial_page
  /\ selectedPlaylist p' = Some sample_playlist.
Proof.
  apply (broken_reply_keeps_old_tracks sample_playlist
           (fun _ => Proxy.Responded 200 (Some {| items := Some [None] |}))
           initial_page 200 {| items := Some [None] |});
    [reflexivity | apply list_elem_of_here].
Defined.

Lemma playlist_track_plays_witness :
  let s' := playTrack preview_track initial in
  currentTrack s' = Some preview_track
  /\ isPlaying s' = true
  /\ hasPreview s' = true
  /\ (src <$> audioRef s') = preview_url preview_track
  /\ demoMode_prop s' = Some false.
Proof.
  apply (playlist_track_plays sample_playlist sample_reply preview_track
           initial {| src := ""; paused := true |});
    [vm_compute; apply list_elem_of_here | reflexivity].
Defined.

Lemma no_audio_means_demo_witness :
  Viz.next_frame Viz.taylor_sin Bars.demo_input Bars.mounted_state
  = Viz.synthetic_frame Viz.taylor_sin (Viz.time Bars.mounted_state)
      (Viz.random Bars.demo_input).
Proof.
  apply (no_audio_means_demo Viz.taylor_sin
           (togglePlayPause (playTrack silent_track initial))
           Bars.demo_input Bars.mounted_state);
    [reflexivity | left; reflexivity].
Defined.

End PageSpec.
